(** * Carousel.js: a model of the slide-index engine and its DOM effects

    The development embeds [src/dist/js/Carousel.js] shallowly.  Slide indices
    and option values are integers ([Z]); the DOM, the timers and the listener
    registry live in an explicit [World] that every method threads through;
    a thrown exception and a loop that never ends are results of their own
    ([Throw], [Diverge]).  Element handles are numbers handed out by a
    counter, the way [document.createElement] hands out fresh objects. *)

From Stdlib Require Import String.
From Stdlib Require Import ZArith List Bool Lia Arith.
Import ListNotations.
Local Open Scope Z_scope.

(** ** Data model *)

Definition node := nat.

(** The closures pushed on [moveCallBacks].  The two built by the class keep
    the buttons they captured; [ExternalObserver] stands for a callback handed
    to [onMove] from outside, which reads the carousel and nothing else. *)
Inductive observer : Type :=
| NavigationObserver (nextButton prevButton : node)
| PaginationObserver (buttons : list node)
| ExternalObserver (id : nat).

(** The functions passed to [addEventListener]. *)
Inductive handler : Type :=
| HNext
| HPrev
| HGoto (i : Z)
| HKeyup
| HResize
| HResetInfinite
| HAutoplay
| HStopAutoplay.

Inductive target : Type :=
| OnWindow
| OnNode (n : node).

(** What the code does to the page, in the order it does it.  Style values
    that the source computes as fractions are kept as the integers they are
    computed from.  [ObserverCall o arg seen] marks the entry of a move
    callback: [arg] is the argument it gets, [seen] the value of
    [this.currentItem] it would read. *)
Inductive effect : Type :=
| CreateElement (n : node) (tag : string)
| SetAttribute (n : node) (name value : string)
| AppendChild (parent child : node)
| CloneNode (src fresh : node)
| ClearInnerHTML (n : node)
| ContainerWidth (n : node) (len visible : Z)
| ItemWidth (n : node) (len visible : Z)
| Transform (n : node) (index len : Z)
| Transition (n : node) (enabled : bool)
| Reflow (n : node)
| ClassAdd (n : node) (cls : string)
| ClassRemove (n : node) (cls : string)
| ConsoleError (msg : string)
| ObserverCall (o : observer) (arg seen : Z)
| SetInterval (id : nat) (timeout : Z)
| ClearInterval (id : nat)
| TouchPluginAttached.

Record World : Type := mkWorld {
  dom : list effect;
  listeners : list (target * string * handler);
  timers : list nat;
  nextTimer : nat;
  nextNode : node;
  innerWidth : Z;
  paginationEl : option node
}.

Record Options : Type := mkOptions {
  slidesToScroll_opt : Z;
  slidesVisible_opt : Z;
  loop : bool;
  navigation : bool;
  pagination : bool;
  infinite : bool;
  autoplay_opt : bool;
  autoplayTimeout : Z;
  responsive : option (list (Z * (Z * Z)))
}.

(** The object literal a caller passes: every key may be missing. *)
Record UserOptions : Type := mkUserOptions {
  u_slidesToScroll : option Z;
  u_slidesVisible : option Z;
  u_loop : option bool;
  u_navigation : option bool;
  u_pagination : option bool;
  u_infinite : option bool;
  u_autoplay : option bool;
  u_autoplayTimeout : option Z;
  u_responsive : option (list (Z * (Z * Z)))
}.

Record Carousel : Type := mkCarousel {
  element : node;
  root : node;
  container : node;
  options : Options;
  offset : Z;
  moveCallBacks : list observer;
  isMobile : bool;
  fromAction : bool;
  intervalID : option nat;
  currentItem : Z;
  items : list node
}.

(** ** Results *)

Inductive Res (A : Type) : Type :=
| Ok (a : A)
| Throw (msg : string) (w : World)
| Diverge.

Arguments Ok {A} a.
Arguments Throw {A} msg w.
Arguments Diverge {A}.

Definition bind {A B : Type} (m : Res A) (k : A -> Res B) : Res B :=
  match m with
  | Ok a => k a
  | Throw msg w => Throw msg w
  | Diverge => Diverge
  end.

Notation "x <- m ;; k" := (bind m (fun x => k))
  (at level 61, m at next level, right associativity).
Notation "' pat <- m ;; k" := (bind m (fun x => match x with pat => k end))
  (at level 61, pat pattern, m at next level, right associativity).

(** ** Field updates *)

Definition set_dom (d : list effect) (w : World) : World :=
  mkWorld d (listeners w) (timers w) (nextTimer w) (nextNode w) (innerWidth w)
          (paginationEl w).

Definition set_listeners (l : list (target * string * handler)) (w : World) : World :=
  mkWorld (dom w) l (timers w) (nextTimer w) (nextNode w) (innerWidth w)
          (paginationEl w).

Definition set_timers (t : list nat) (n : nat) (w : World) : World :=
  mkWorld (dom w) (listeners w) t n (nextNode w) (innerWidth w) (paginationEl w).

Definition set_nextNode (n : node) (w : World) : World :=
  mkWorld (dom w) (listeners w) (timers w) (nextTimer w) n (innerWidth w)
          (paginationEl w).

Definition set_paginationEl (p : option node) (w : World) : World :=
  mkWorld (dom w) (listeners w) (timers w) (nextTimer w) (nextNode w)
          (innerWidth w) p.

Definition set_options (o : Options) (c : Carousel) : Carousel :=
  mkCarousel (element c) (root c) (container c) o (offset c) (moveCallBacks c)
             (isMobile c) (fromAction c) (intervalID c) (currentItem c) (items c).

Definition set_offset (k : Z) (c : Carousel) : Carousel :=
  mkCarousel (element c) (root c) (container c) (options c) k (moveCallBacks c)
             (isMobile c) (fromAction c) (intervalID c) (currentItem c) (items c).

Definition set_moveCallBacks (l : list observer) (c : Carousel) : Carousel :=
  mkCarousel (element c) (root c) (container c) (options c) (offset c) l
             (isMobile c) (fromAction c) (intervalID c) (currentItem c) (items c).

Definition set_fromAction (b : bool) (c : Carousel) : Carousel :=
  mkCarousel (element c) (root c) (container c) (options c) (offset c)
             (moveCallBacks c) (isMobile c) b (intervalID c) (currentItem c)
             (items c).

Definition set_intervalID (i : option nat) (c : Carousel) : Carousel :=
  mkCarousel (element c) (root c) (container c) (options c) (offset c)
             (moveCallBacks c) (isMobile c) (fromAction c) i (currentItem c)
             (items c).

Definition set_currentItem (k : Z) (c : Carousel) : Carousel :=
  mkCarousel (element c) (root c) (container c) (options c) (offset c)
             (moveCallBacks c) (isMobile c) (fromAction c) (intervalID c) k
             (items c).

Definition set_items (l : list node) (c : Carousel) : Carousel :=
  mkCarousel (element c) (root c) (container c) (options c) (offset c)
             (moveCallBacks c) (isMobile c) (fromAction c) (intervalID c)
             (currentItem c) l.

(** ** Browser primitives *)

Definition emit (e : effect) (w : World) : World := set_dom (dom w ++ [e]) w.

Definition emits (es : list effect) (w : World) : World := set_dom (dom w ++ es) w.

Definition addEventListener (t : target) (ev : string) (h : handler) (w : World)
  : World :=
  set_listeners (listeners w ++ [(t, ev, h)]) w.

Definition appendChild (parent child : node) (w : World) : World :=
  emit (AppendChild parent child) w.

(** [element.cloneNode(true)]: a fresh element. *)
Definition cloneNode (src : node) (w : World) : node * World :=
  let n := nextNode w in
  (n, emit (CloneNode src n) (set_nextNode (S n) w)).

Fixpoint cloneAll (srcs : list node) (w : World) : list node * World :=
  match srcs with
  | [] => ([], w)
  | x :: rest =>
      let (n, w1) := cloneNode x w in
      let (ns, w2) := cloneAll rest w1 in
      (n :: ns, w2)
  end.

(** [el.classList.add(cls)] and [el.classList.remove(cls)]; reading
    [classList] of [undefined] is a TypeError. *)
Definition classListAdd (el : option node) (cls : string) (w : World) : Res World :=
  match el with
  | Some n => Ok (emit (ClassAdd n cls) w)
  | None => Throw "TypeError: undefined has no properties" w
  end.

Definition classListRemove (el : option node) (cls : string) (w : World) : Res World :=
  match el with
  | Some n => Ok (emit (ClassRemove n cls) w)
  | None => Throw "TypeError: undefined has no properties" w
  end.

(** [arr[k]] for an integer [k]: [None] is [undefined]. *)
Definition itemAt (l : list node) (k : Z) : option node :=
  if k <? 0 then None else nth_error l (Z.to_nat k).

Definition isUndefined (x : option node) : bool :=
  match x with None => true | Some _ => false end.

(** [Array.prototype.slice(start, stop)] with its relative indices. *)
Definition jsSlice {A : Type} (l : list A) (start stop : Z) : list A :=
  let len := Z.of_nat (length l) in
  let k := if start <? 0 then Z.max (len + start) 0 else Z.min start len in
  let e := if stop <? 0 then Z.max (len + stop) 0 else Z.min stop len in
  firstn (Z.to_nat (e - k)) (skipn (Z.to_nat k) l).

Definition jsSliceFrom {A : Type} (l : list A) (start : Z) : list A :=
  jsSlice l start (Z.of_nat (length l)).

(** The integers [lo, lo+1, ..., hi], empty when [hi < lo]. *)
Definition zrange (lo hi : Z) : list Z :=
  map (fun k => lo + Z.of_nat k) (seq 0 (Z.to_nat (hi - lo + 1))).

(** [a % b] on integers: [None] is NaN. *)
Definition jsRem (a b : Z) : option Z :=
  if b =? 0 then None else Some (Z.rem a b).

(** [Math.round(a / b)] for an integer or NaN [a] and an integer [b]:
    the quotient rounded to the nearest integer, halves upwards; [None] is
    NaN or an infinity, which index no array element. *)
Definition jsRoundDiv (a : option Z) (b : Z) : option Z :=
  match a with
  | None => None
  | Some x => if b =? 0 then None else Some ((2 * x + b) / (2 * b))
  end.

Definition elementAt (l : list node) (k : option Z) : option node :=
  match k with
  | None => None
  | Some i => itemAt l i
  end.

(** ** The class *)

Definition len (c : Carousel) : Z := Z.of_nat (length (items c)).

(** [get slidesToScroll] and [get slidesVisible]. *)
Definition slidesToScroll (c : Carousel) : Z :=
  if isMobile c then 1 else slidesToScroll_opt (options c).

Definition slidesVisible (c : Carousel) : Z :=
  if isMobile c then 1 else slidesVisible_opt (options c).

Definition createDivWithClass (className : string) (w : World) : node * World :=
  let n := nextNode w in
  (n, emits [CreateElement n "div"; SetAttribute n "class" className]
            (set_nextNode (S n) w)).

Definition setStyle (c : Carousel) (w : World) : World :=
  let w1 := emit (ContainerWidth (container c) (len c) (slidesVisible c)) w in
  fold_left (fun acc item => emit (ItemWidth item (len c) (slidesVisible c)) acc)
            (items c) w1.

Definition translate (index : Z) (c : Carousel) (w : World) : World :=
  emit (Transform (container c) index (len c)) w.

Definition disableTransition (c : Carousel) (w : World) : World :=
  emit (Transition (container c) false) w.

Definition enableTransition (c : Carousel) (w : World) : World :=
  emit (Transition (container c) true) w.

Definition onMove (callBack : observer) (c : Carousel) : Carousel :=
  set_moveCallBacks (moveCallBacks c ++ [callBack]) c.

Definition hiddenPrev : string := "carousel__prev--hidden".
Definition hiddenNext : string := "carousel__next--hidden".
Definition activeButtonClass : string := "carousel__pagination__button--active".

Fixpoint removeActive (buttons : list node) (w : World) : Res World :=
  match buttons with
  | [] => Ok w
  | b :: rest =>
      w1 <- classListRemove (Some b) activeButtonClass w ;;
      removeActive rest w1
  end.

(** The index the pagination callback looks up in [buttons]
    (line 184 of the source). *)
Definition activeIndex (c : Carousel) (index : Z) : option Z :=
  let count := len c - 2 * offset c in
  jsRoundDiv (jsRem (index - offset c) count) (slidesToScroll_opt (options c)).

(** One move callback applied to [index]. *)
Definition runObserver (o : observer) (index : Z) (c : Carousel) (w : World)
  : Res World :=
  let w := emit (ObserverCall o index (currentItem c)) w in
  match o with
  | NavigationObserver nextButton prevButton =>
      w1 <- (if index =? 0
             then classListAdd (Some prevButton) hiddenPrev w
             else classListRemove (Some prevButton) hiddenPrev w) ;;
      if isUndefined (itemAt (items c) (currentItem c + slidesVisible c))
      then classListAdd (Some nextButton) hiddenNext w1
      else classListRemove (Some nextButton) hiddenNext w1
  | PaginationObserver buttons =>
      let activeButton := elementAt buttons (activeIndex c index) in
      if isUndefined activeButton then Ok w
      else
        w1 <- removeActive buttons w ;;
        classListAdd activeButton activeButtonClass w1
  | ExternalObserver _ => Ok w
  end.

(** [this.moveCallBacks.forEach((cb) => cb(index))]. *)
Fixpoint forEachCallBack (cbs : list observer) (index : Z) (c : Carousel)
  (w : World) : Res World :=
  match cbs with
  | [] => Ok w
  | cb :: rest =>
      w1 <- runObserver cb index c w ;;
      forEachCallBack rest index c w1
  end.

Definition countUndefined (l : list node) (ks : list Z) : Z :=
  Z.of_nat (length (filter (fun k => isUndefined (itemAt l k)) ks)).

(** Lines 200-213: the index after the adjustment for missing slides. *)
Definition shortfallIndex (c : Carousel) (index : Z) : Z :=
  if (index + slidesVisible c >? len c) && (index >? currentItem c) then
    let cpt :=
      countUndefined (items c)
        (map (fun i => currentItem c + slidesToScroll c - 1 + i)
             (zrange 1 (slidesVisible c))) in
    if cpt <? slidesToScroll c then index - cpt else index
  else if (index <? 0) && (index <? currentItem c) then
    let cpt :=
      countUndefined (items c)
        (map (fun i => currentItem c - i) (rev (zrange 1 (slidesToScroll c)))) in
    if cpt <? slidesToScroll c then index + cpt else index
  else index.

(** Lines 215-224: wrap in loop mode, fall back to the current item
    otherwise. *)
Definition clampIndex (c : Carousel) (index : Z) : Z :=
  if index <? 0 then
    if loop (options c) then len c - slidesVisible c else currentItem c
  else if (index >=? len c)
          || (isUndefined (itemAt (items c) (currentItem c + slidesVisible c))
              && (index >? currentItem c)) then
    if loop (options c) then 0 else currentItem c
  else index.

Definition gotoItem (index : Z) (animation : bool) (c : Carousel) (w : World)
  : Res (Carousel * World) :=
  let index := shortfallIndex c index in
  let index := clampIndex c index in
  let w := if negb animation then disableTransition c w else w in
  let w := translate index c w in
  let w := emit (Reflow (container c)) w in
  let w := if negb animation then enableTransition c w else w in
  let c := set_currentItem index c in
  w <- forEachCallBack (moveCallBacks c) index c w ;;
  Ok (set_fromAction true c, w).

Definition next (c : Carousel) (w : World) : Res (Carousel * World) :=
  gotoItem (currentItem c + slidesToScroll c) true c w.

Definition prev (c : Carousel) (w : World) : Res (Carousel * World) :=
  gotoItem (currentItem c - slidesToScroll c) true c w.

Definition resetInfinite (c : Carousel) (w : World) : Res (Carousel * World) :=
  if negb (fromAction c) then Ok (c, w)
  else
    '(c1, w1) <-
      (if currentItem c <=? slidesToScroll_opt (options c) then
         gotoItem (currentItem c + (len c - 2 * offset c)) false c w
       else if currentItem c >=? len c - offset c then
         gotoItem (currentItem c - (len c - 2 * offset c)) false c w
       else Ok (c, w)) ;;
    Ok (set_fromAction false c1, w1).

Definition createNavigation (c : Carousel) (w : World) : Carousel * World :=
  let (nextButton, w) := createDivWithClass "carousel__next" w in
  let (prevButton, w) := createDivWithClass "carousel__prev" w in
  let w := appendChild (root c) nextButton w in
  let w := appendChild (root c) prevButton w in
  let w := addEventListener (OnNode nextButton) "click" HNext w in
  let w := addEventListener (OnNode prevButton) "click" HPrev w in
  if loop (options c) then (c, w)
  else (onMove (NavigationObserver nextButton prevButton) c, w).

(** Lines 175-180.  The loop of the source ends only when [i] reaches the
    bound, so the model runs it on fuel and gives [Diverge] when the fuel is
    spent. *)
Fixpoint paginationLoop (fuel : nat) (i : Z) (c : Carousel) (pagination : node)
  (buttons : list node) (w : World) : Res (list node * World) :=
  match fuel with
  | O => Diverge
  | S fuel' =>
      if i <? len c - 2 * offset c then
        let (button, w) := createDivWithClass "carousel__pagination__button" w in
        let w := addEventListener (OnNode button) "click" (HGoto i) w in
        let w := appendChild pagination button w in
        paginationLoop fuel' (i + slidesToScroll_opt (options c)) c pagination
                       (buttons ++ [button]) w
      else Ok (buttons, w)
  end.

(** [paginationEl] is what [root.querySelector('.carousel__pagination')]
    finds: the element a former call appended, if any. *)
Definition createPagination (fuel : nat) (c : Carousel) (w : World)
  : Res (Carousel * World) :=
  let (pagination, w) :=
    match paginationEl w with
    | Some p => (p, w)
    | None => createDivWithClass "carousel__pagination" w
    end in
  let w := emit (ClearInnerHTML pagination) w in
  let w := set_paginationEl (Some pagination) (appendChild (root c) pagination w) in
  '(buttons, w) <- paginationLoop fuel 0 c pagination [] w ;;
  Ok (onMove (PaginationObserver buttons) c, w).

Definition applyBreakpoint (width : Z) (o : Options) (bp : Z * (Z * Z)) : Options :=
  let '(res, (toScroll, visible)) := bp in
  if width >=? res then
    mkOptions toScroll visible (loop o) (navigation o) (pagination o) (infinite o)
              (autoplay_opt o) (autoplayTimeout o) (responsive o)
  else o.

Definition onWindowResize (fuel : nat) (c : Carousel) (w : World)
  : Res (Carousel * World) :=
  let o :=
    match responsive (options c) with
    | Some bps => fold_left (applyBreakpoint (innerWidth w)) bps (options c)
    | None => options c
    end in
  let c := set_options o c in
  '(c, w) <- (if pagination (options c) then createPagination fuel c w
              else Ok (c, w)) ;;
  let w := setStyle c w in
  w <- forEachCallBack (moveCallBacks c) (currentItem c) c w ;;
  Ok (c, w).

(** [setInterval] hands out a new timer; the timer stays active until
    [clearInterval] is called on its identifier. *)
Definition autoplay (c : Carousel) (w : World) : Carousel * World :=
  let id := nextTimer w in
  let w := emit (SetInterval id (autoplayTimeout (options c)))
                (set_timers (timers w ++ [id]) (S id) w) in
  (set_intervalID (Some id) c, w).

Definition stopAutoplay (c : Carousel) (w : World) : Carousel * World :=
  match intervalID c with
  | Some id =>
      (c, emit (ClearInterval id)
               (set_timers (remove Nat.eq_dec id (timers w)) (nextTimer w) w))
  | None => (c, w)
  end.

(** ** Events *)

Definition target_eqb (a b : target) : bool :=
  match a, b with
  | OnWindow, OnWindow => true
  | OnNode n, OnNode m => Nat.eqb n m
  | _, _ => false
  end.

Definition runHandler (fuel : nat) (h : handler) (key : string) (c : Carousel)
  (w : World) : Res (Carousel * World) :=
  match h with
  | HNext => next c w
  | HPrev => prev c w
  | HGoto i => gotoItem (i + offset c) true c w
  | HKeyup =>
      if (key =? "ArrowRight")%string || (key =? "Right")%string then next c w
      else if (key =? "ArrowLeft")%string || (key =? "Left")%string then prev c w
      else Ok (c, w)
  | HResize => onWindowResize fuel c w
  | HResetInfinite => resetInfinite c w
  | HAutoplay => Ok (autoplay c w)
  | HStopAutoplay => Ok (stopAutoplay c w)
  end.

Fixpoint runHandlers (fuel : nat) (hs : list handler) (key : string)
  (c : Carousel) (w : World) : Res (Carousel * World) :=
  match hs with
  | [] => Ok (c, w)
  | h :: rest =>
      '(c1, w1) <- runHandler fuel h key c w ;;
      runHandlers fuel rest key c1 w1
  end.

(** The browser delivers event [ev] on [t]: the listeners registered for it
    run in the order of their registration. *)
Definition fire (fuel : nat) (t : target) (ev : string) (key : string)
  (c : Carousel) (w : World) : Res (Carousel * World) :=
  let hs :=
    map snd
        (filter (fun l => target_eqb (fst (fst l)) t && (snd (fst l) =? ev)%string)
                (listeners w)) in
  runHandlers fuel hs key c w.

(** One period of the interval timer [id] elapses. *)
Definition tick (id : nat) (c : Carousel) (w : World) : Res (Carousel * World) :=
  if existsb (Nat.eqb id) (timers w) then next c w else Ok (c, w).

(** ** Construction *)

Definition orDefault {A : Type} (given : option A) (default : A) : A :=
  match given with Some a => a | None => default end.

(** [Object.assign({}, defaults, options)]. *)
Definition assignOptions (u : UserOptions) : Options :=
  mkOptions (orDefault (u_slidesToScroll u) 1)
            (orDefault (u_slidesVisible u) 1)
            (orDefault (u_loop u) false)
            (orDefault (u_navigation u) true)
            (orDefault (u_pagination u) false)
            (orDefault (u_infinite u) false)
            (orDefault (u_autoplay u) false)
            (orDefault (u_autoplayTimeout u) 2000)
            (u_responsive u).

(** Lines 51-56: one wrapper per child. *)
Fixpoint wrapChildren (containerEl : node) (children : list node) (w : World)
  : list node * World :=
  match children with
  | [] => ([], w)
  | child :: rest =>
      let (item, w) := createDivWithClass "carousel__item" w in
      let w := appendChild item child w in
      let w := appendChild containerEl item w in
      let (its, w) := wrapChildren containerEl rest w in
      (item :: its, w)
  end.

(** Lines 58-70. *)
Definition setupInfinite (children : list node) (c : Carousel) (w : World)
  : Res (Carousel * World) :=
  let c := set_offset (slidesVisible_opt (options c) + slidesToScroll_opt (options c)) c in
  let w := if offset c >? Z.of_nat (length children)
           then emit (ConsoleError "You do not have enough element in the carousel") w
           else w in
  let (before, w) := cloneAll (jsSliceFrom (items c) (len c - offset c)) w in
  let (after, w) := cloneAll (jsSlice (items c) 0 (offset c)) w in
  let c := set_items (before ++ items c ++ after) c in
  let c := set_currentItem (offset c) c in
  gotoItem (offset c) true c w.

(** Lines 35-56: the fields, the root and the container, the wrappers. *)
Definition mount (elementEl : node) (children : list node) (o : Options)
  (w : World) : Carousel * World :=
  let (rootEl, w) := createDivWithClass "carousel" w in
  let (containerEl, w) := createDivWithClass "carousel__container" w in
  let w := emit (SetAttribute rootEl "tabindex" "0") w in
  let w := appendChild rootEl containerEl w in
  let w := appendChild elementEl rootEl w in
  let (its, w) := wrapChildren containerEl children w in
  (mkCarousel elementEl rootEl containerEl o 0 [] false false None 0 its, w).

(** Lines 72-78: the slides go into the container, then the style, the
    navigation, the pagination and a first round of the callbacks. *)
Definition furnish (fuel : nat) (c : Carousel) (w : World)
  : Res (Carousel * World) :=
  let w := fold_left (fun acc item => appendChild (container c) item acc)
                     (items c) w in
  let w := setStyle c w in
  let (c, w) := if navigation (options c) then createNavigation c w else (c, w) in
  '(c, w) <- (if pagination (options c) then createPagination fuel c w
              else Ok (c, w)) ;;
  w <- forEachCallBack (moveCallBacks c) (currentItem c) c w ;;
  Ok (c, w).

(** Modelled from the spec: the constructor of [CarouselTouchPlugin], a class
    that line 102 instantiates and no source file defines.  The spec
    (sections 2 and 6) makes it an outside collaborator that needs only the
    movement method, the current item and the root element to attach its
    pointer listeners; its construction is recorded and changes nothing
    else. *)
Definition newCarouselTouchPlugin (c : Carousel) (w : World) : World :=
  emit TouchPluginAttached w.

(** Lines 80-102: the listeners, the first timer and the touch plugin. *)
Definition wire (fuel : nat) (c : Carousel) (w : World) : Res (Carousel * World) :=
  '(c, w) <- (match responsive (options c) with
              | Some _ =>
                  '(c, w) <- onWindowResize fuel c w ;;
                  Ok (c, addEventListener OnWindow "resize" HResize w)
              | None => Ok (c, w)
              end) ;;
  let w := addEventListener (OnNode (root c)) "keyup" HKeyup w in
  let w := if infinite (options c)
           then addEventListener (OnNode (container c)) "transitionend"
                                 HResetInfinite w
           else w in
  let (c, w) :=
    if autoplay_opt (options c) then
      let (c, w) := autoplay c w in
      let w := addEventListener (OnNode (root c)) "mouseover" HStopAutoplay w in
      let w := addEventListener (OnNode (root c)) "mouseout" HAutoplay w in
      let w := addEventListener OnWindow "focus" HAutoplay w in
      let w := addEventListener OnWindow "blur" HStopAutoplay w in
      (c, w)
    else (c, w) in
  Ok (c, newCarouselTouchPlugin c w).

Definition constructor (fuel : nat) (elementEl : node) (children : list node)
  (u : UserOptions) (w : World) : Res (Carousel * World) :=
  let o := assignOptions u in
  if loop o && infinite o then
    Throw "A carousel can not be both loop and infinite" w
  else
    let (c, w) := mount elementEl children o w in
    '(c, w) <- (if infinite o then setupInfinite children c w else Ok (c, w)) ;;
    '(c, w) <- furnish fuel c w ;;
    wire fuel c w.

(** A page before the script runs: nothing done yet, no timer, elements
    [0 .. firstFree-1] already in the document. *)
Definition freshWorld (firstFree : node) (width : Z) : World :=
  mkWorld [] [] [] 0 firstFree width None.

(** The children of the host element as the handles [1 .. n]; the host
    element itself is handle [0]. *)
Definition childrenOf (n : nat) : list node := seq 1 n.

(** ** Vocabulary of the statements *)

(** The callback entries of a stretch of effects, in order. *)
Fixpoint observerCalls (es : list effect) : list (observer * Z * Z) :=
  match es with
  | [] => []
  | ObserverCall o arg seen :: rest => (o, arg, seen) :: observerCalls rest
  | _ :: rest => observerCalls rest
  end.

(** What one callback does to the page. *)
Definition observerTrace (o : observer) (index : Z) (c : Carousel) : list effect :=
  ObserverCall o index (currentItem c) ::
  match o with
  | NavigationObserver nextButton prevButton =>
      [ if index =? 0 then ClassAdd prevButton hiddenPrev
        else ClassRemove prevButton hiddenPrev;
        if isUndefined (itemAt (items c) (currentItem c + slidesVisible c))
        then ClassAdd nextButton hiddenNext
        else ClassRemove nextButton hiddenNext ]
  | PaginationObserver buttons =>
      match elementAt buttons (activeIndex c index) with
      | None => []
      | Some b =>
          map (fun x => ClassRemove x activeButtonClass) buttons
          ++ [ClassAdd b activeButtonClass]
      end
  | ExternalObserver _ => []
  end.

Definition callBacksTrace (cbs : list observer) (index : Z) (c : Carousel)
  : list effect :=
  flat_map (fun o => observerTrace o index c) cbs.

(** The index [gotoItem] settles on, and the state and effects it leaves. *)
Definition finalIndex (c : Carousel) (index : Z) : Z :=
  clampIndex c (shortfallIndex c index).

Definition moveTrace (index : Z) (animation : bool) (c : Carousel) : list effect :=
  (if animation then [] else [Transition (container c) false])
  ++ [Transform (container c) (finalIndex c index) (len c); Reflow (container c)]
  ++ (if animation then [] else [Transition (container c) true]).

Definition moved (index : Z) (c : Carousel) : Carousel :=
  set_fromAction true (set_currentItem (finalIndex c index) c).

(** The operations that move a carousel. *)
Inductive action : Type :=
| AGoto (index : Z) (animation : bool)
| ANext
| APrev
| AResetInfinite.

Definition runAction (a : action) (c : Carousel) (w : World)
  : Res (Carousel * World) :=
  match a with
  | AGoto index animation => gotoItem index animation c w
  | ANext => next c w
  | APrev => prev c w
  | AResetInfinite => resetInfinite c w
  end.

Fixpoint runActions (acts : list action) (c : Carousel) (w : World)
  : Res (Carousel * World) :=
  match acts with
  | [] => Ok (c, w)
  | a :: rest =>
      '(c1, w1) <- runAction a c w ;;
      runActions rest c1 w1
  end.

Definition andThen (r : Res (Carousel * World))
  (f : Carousel -> World -> Res (Carousel * World)) : Res (Carousel * World) :=
  '(c, w) <- r ;; f c w.

(** A carousel with something to show: at least as many slides as the
    window holds, and the current slide among them. *)
Definition inRange (c : Carousel) : Prop :=
  0 <= currentItem c < len c.

Definition windowFits (c : Carousel) : Prop :=
  1 <= slidesVisible c <= len c.

(** Two states of one carousel with the same options, offset, slides and
    current item. *)
Definition sameSlides (c c' : Carousel) : Prop :=
  options c' = options c /\ offset c' = offset c /\ items c' = items c
  /\ currentItem c' = currentItem c.

(** The ceiling of [a / b]. *)
Definition ceilDiv (a b : Z) : Z := - ((- a) / b).

(** The number of slides outside the cloned borders. *)
Definition scrollable (c : Carousel) : Z := len c - 2 * offset c.

(** Options that set the window, the step and the two modes and leave the
    rest to the defaults. *)
Definition modeOptions (toScroll visible : Z) (lp inf : bool) : UserOptions :=
  mkUserOptions (Some toScroll) (Some visible) (Some lp) None None (Some inf)
                None None None.

(** The page of the scenarios: host element [0], children [1 .. n]. *)
Definition build (fuel n : nat) (u : UserOptions) : Res (Carousel * World) :=
  constructor fuel 0%nat (childrenOf n) u (freshWorld (S n) 1024).

(** A carousel written down field by field: [n] slides, no callback
    registered, host element [0], root [1], container [2]. *)
Definition plainOptions (toScroll visible : Z) (lp inf : bool) : Options :=
  mkOptions toScroll visible lp true false inf false 2000 None.

Definition carouselOf (o : Options) (off cur : Z) (n : nat) : Carousel :=
  mkCarousel 0%nat 1%nat 2%nat o off [] false false None cur (seq 3 n).

Definition sixByTwo (nav pag auto : bool) : UserOptions :=
  mkUserOptions (Some 2) (Some 2) (Some false) (Some nav) (Some pag) (Some false)
                (Some auto) None None.

(** [next()] called [k] times in a row. *)
Fixpoint nextTimes (k : nat) (c : Carousel) (w : World) : Res (Carousel * World) :=
  match k with
  | O => Ok (c, w)
  | S k' => '(c1, w1) <- next c w ;; nextTimes k' c1 w1
  end.

(** Six slides seen two at a time and scrolled two at a time, no loop. *)
Definition sixSlides (c : Carousel) : Prop :=
  length (items c) = 6%nat /\ isMobile c = false
  /\ slidesVisible_opt (options c) = 2 /\ slidesToScroll_opt (options c) = 2
  /\ loop (options c) = false.

(** ** Vocabulary of the further properties *)

(** The window starts on a slide and is filled up to its last place. *)
Definition windowFull (c : Carousel) : Prop :=
  0 <= currentItem c /\ currentItem c + slidesVisible c <= len c.

Definition isStep (a : action) : Prop := a = ANext \/ a = APrev.

(** The current items that [resetInfinite] leaves where they are. *)
Definition restingZone (c : Carousel) : Prop :=
  slidesToScroll_opt (options c) < currentItem c < len c - offset c.

(** The breakpoints a viewport of [width] meets, in iteration order. *)
Definition matching (width : Z) (bps : list (Z * (Z * Z))) : list (Z * (Z * Z)) :=
  filter (fun bp => width >=? fst bp) bps.

Definition withWindow (o : Options) (toScroll visible : Z) : Options :=
  mkOptions toScroll visible (loop o) (navigation o) (pagination o) (infinite o)
            (autoplay_opt o) (autoplayTimeout o) (responsive o).

(** The options with the window of the last breakpoint met, if any. *)
Definition selectBreakpoint (width : Z) (bps : list (Z * (Z * Z))) (o : Options)
  : Options :=
  match rev (matching width bps) with
  | [] => o
  | (_, (toScroll, visible)) :: _ => withWindow o toScroll visible
  end.

(** The pointer enters the carousel and leaves it again: [stopAutoplay],
    then [autoplay]. *)
Definition pauseResume (cw : Carousel * World) : Carousel * World :=
  let (c1, w1) := stopAutoplay (fst cw) (snd cw) in autoplay c1 w1.

(** The [CloneNode] effects of cloning [srcs] into [fresh], pairwise. *)
Definition cloneEffects (srcs fresh : list node) : list effect :=
  map (fun p => CloneNode (fst p) (snd p)) (combine srcs fresh).

(** ** Everything that can happen to a carousel *)

Definition set_innerWidth (width : Z) (w : World) : World :=
  mkWorld (dom w) (listeners w) (timers w) (nextTimer w) (nextNode w) width
          (paginationEl w).

(** A direct call of [gotoItem], the registration of a callback, a run of any
    function the class registers as a listener (with the key of the event),
    a tick of a timer, or the viewport taking another width. *)
Inductive operation : Type :=
| OGoto (index : Z) (animation : bool)
| OOnMove (callBack : observer)
| OListener (h : handler) (key : string)
| OTick (id : nat)
| OViewport (width : Z).

Definition runOperation (fuel : nat) (op : operation) (c : Carousel) (w : World)
  : Res (Carousel * World) :=
  match op with
  | OGoto index animation => gotoItem index animation c w
  | OOnMove callBack => Ok (onMove callBack c, w)
  | OListener h key => runHandler fuel h key c w
  | OTick id => tick id c w
  | OViewport width => Ok (c, set_innerWidth width w)
  end.

Fixpoint runOperations (fuel : nat) (ops : list operation) (c : Carousel)
  (w : World) : Res (Carousel * World) :=
  match ops with
  | [] => Ok (c, w)
  | op :: rest =>
      '(c1, w1) <- runOperation fuel op c w ;;
      runOperations fuel rest c1 w1
  end.

Definition breakpointsOf (c : Carousel) : list (Z * (Z * Z)) :=
  match responsive (options c) with
  | Some bps => bps
  | None => []
  end.

(** In loop mode the window, as configured and as any breakpoint would set
    it, holds at least one slide and no more than there are. *)
Definition loopWindowFits (c : Carousel) : Prop :=
  loop (options c) = true ->
  1 <= slidesVisible c <= len c
  /\ forall res toScroll visible,
       In (res, (toScroll, visible)) (breakpointsOf c) -> 1 <= visible <= len c.

(** With pagination the step, as configured and as any breakpoint would set
    it, is at least one. *)
Definition stepsPositive (c : Carousel) : Prop :=
  pagination (options c) = true ->
  1 <= slidesToScroll_opt (options c)
  /\ forall res toScroll visible,
       In (res, (toScroll, visible)) (breakpointsOf c) -> 1 <= toScroll.

(** What one operation may change in a carousel: the slides, the mobile flag
    and the offset stay; the options stay or take the window of a breakpoint;
    the current item stays or is an index that came out of the clamp. *)
Definition stepOf (c c1 : Carousel) : Prop :=
  items c1 = items c /\ isMobile c1 = isMobile c /\ offset c1 = offset c
  /\ (options c1 = options c
      \/ exists res toScroll visible,
           In (res, (toScroll, visible)) (breakpointsOf c)
           /\ options c1 = withWindow (options c) toScroll visible)
  /\ (currentItem c1 = currentItem c
      \/ exists index, currentItem c1 = clampIndex c index).

(** ** script.js *)

(** [detectMob], on the two window dimensions it reads. *)
Definition detectMob (width height : Z) : bool :=
  (width <=? 800) && (height <=? 900).

(** The options of the page's carousel (lines 12-16 of script.js). *)
Definition pageOptions (width height : Z) : UserOptions :=
  mkUserOptions (Some 2) (Some (if detectMob width height then 1 else 2))
                None None (Some true) None None None None.

(** The [new Carousel] call of the page's DOMContentLoaded listener, on a
    window as high as [height] and as wide as the world says. *)
Definition pageCarousel (fuel : nat) (carouselEl : node) (children : list node)
  (height : Z) (w : World) : Res (Carousel * World) :=
  constructor fuel carouselEl children (pageOptions (innerWidth w) height) w.

(** ** Effects compose *)

Section Effects.

Variable w : World.

Lemma emits_nil : emits [] w = w.
Proof.
  destruct w; unfold emits, set_dom; cbn. now rewrite app_nil_r.
Qed.

Lemma emit_as_emits (e : effect) : emit e w = emits [e] w.
Proof. reflexivity. Qed.

Lemma emits_emits (a b : list effect) : emits b (emits a w) = emits (a ++ b) w.
Proof.
  unfold emits, set_dom; cbn. now rewrite app_assoc.
Qed.

Lemma dom_emits (es : list effect) : dom (emits es w) = dom w ++ es.
Proof. reflexivity. Qed.

End Effects.

Lemma observerCalls_app (a b : list effect) :
  observerCalls (a ++ b) = observerCalls a ++ observerCalls b.
Proof.
  induction a as [|e a IH]; [reflexivity|].
  destruct e; cbn; rewrite ?IH; reflexivity.
Qed.

Lemma observerCalls_removals (bs : list node) (cls : string) :
  observerCalls (map (fun x => ClassRemove x cls) bs) = [].
Proof. induction bs; cbn; auto. Qed.

(** ** The callbacks never fail *)

Lemma removeActive_eq (bs : list node) (w : World) :
  removeActive bs w
  = Ok (emits (map (fun x => ClassRemove x activeButtonClass) bs) w).
Proof.
  revert w; induction bs as [|b bs IH]; intro w; cbn.
  - now rewrite emits_nil.
  - rewrite IH, emit_as_emits, emits_emits. reflexivity.
Qed.

Lemma runObserver_eq (o : observer) (index : Z) (c : Carousel) (w : World) :
  runObserver o index c w = Ok (emits (observerTrace o index c) w).
Proof.
  unfold runObserver, observerTrace.
  destruct o as [nb pb|bs|id].
  - destruct (index =? 0);
      destruct (isUndefined (itemAt (items c) (currentItem c + slidesVisible c)));
      cbn; rewrite !emit_as_emits, !emits_emits; reflexivity.
  - destruct (elementAt bs (activeIndex c index)) as [b|]; cbn.
    + rewrite removeActive_eq. cbn.
      rewrite !emit_as_emits, !emits_emits. reflexivity.
    + reflexivity.
  - reflexivity.
Qed.

Lemma forEachCallBack_eq (cbs : list observer) (index : Z) (c : Carousel)
  (w : World) :
  forEachCallBack cbs index c w = Ok (emits (callBacksTrace cbs index c) w).
Proof.
  revert w; induction cbs as [|cb cbs IH]; intro w; cbn.
  - now rewrite emits_nil.
  - rewrite runObserver_eq. cbn. rewrite IH, emits_emits. reflexivity.
Qed.

Lemma observerCalls_trace (o : observer) (index : Z) (c : Carousel) :
  observerCalls (observerTrace o index c) = [(o, index, currentItem c)].
Proof.
  unfold observerTrace. destruct o as [nb pb|bs|id]; cbn.
  - destruct (index =? 0);
      destruct (isUndefined (itemAt (items c) (currentItem c + slidesVisible c)));
      reflexivity.
  - destruct (elementAt bs (activeIndex c index)); [|reflexivity].
    rewrite observerCalls_app, observerCalls_removals. reflexivity.
  - reflexivity.
Qed.

Lemma observerCalls_callBacks (cbs : list observer) (index : Z) (c : Carousel) :
  observerCalls (callBacksTrace cbs index c)
  = map (fun o => (o, index, currentItem c)) cbs.
Proof.
  induction cbs as [|cb cbs IH]; [reflexivity|].
  unfold callBacksTrace in *; cbn [flat_map map].
  rewrite observerCalls_app, observerCalls_trace, IH. reflexivity.
Qed.

Lemma observerCalls_moveTrace (index : Z) (animation : bool) (c : Carousel) :
  observerCalls (moveTrace index animation c) = [].
Proof. destruct animation; reflexivity. Qed.

(** ** [gotoItem] as an equation *)

Lemma gotoItem_eq (index : Z) (animation : bool) (c : Carousel) (w : World) :
  gotoItem index animation c w
  = Ok (moved index c,
        emits (moveTrace index animation c
               ++ callBacksTrace (moveCallBacks c) (finalIndex c index)
                    (set_currentItem (finalIndex c index) c)) w).
Proof.
  unfold gotoItem. rewrite forEachCallBack_eq. cbn [bind].
  unfold moved, moveTrace, finalIndex, translate, disableTransition,
    enableTransition.
  destruct animation; cbn [negb];
    rewrite !emit_as_emits, !emits_emits; cbn [app]; reflexivity.
Qed.

(** ** Array reads *)

Lemma itemAt_defined (l : list node) (k : Z) :
  0 <= k < Z.of_nat (length l) -> isUndefined (itemAt l k) = false.
Proof.
  intros [H0 H1]. unfold itemAt.
  destruct (Z.ltb_spec k 0) as [H|_]; [lia|].
  destruct (nth_error l (Z.to_nat k)) eqn:E; [reflexivity|].
  apply nth_error_None in E. lia.
Qed.

Lemma itemAt_undefined (l : list node) (k : Z) :
  k < 0 \/ Z.of_nat (length l) <= k -> isUndefined (itemAt l k) = true.
Proof.
  intros H. unfold itemAt.
  destruct (Z.ltb_spec k 0) as [_|H0]; [reflexivity|].
  destruct (nth_error l (Z.to_nat k)) eqn:E; [|reflexivity].
  assert (Hn : nth_error l (Z.to_nat k) <> None) by congruence.
  apply nth_error_Some in Hn. lia.
Qed.

Lemma zrange_In (lo hi i : Z) : In i (zrange lo hi) <-> lo <= i <= hi.
Proof.
  unfold zrange. rewrite in_map_iff. split.
  - intros (k & <- & Hk). apply in_seq in Hk. lia.
  - intros H. exists (Z.to_nat (i - lo)). split; [lia|].
    apply in_seq. lia.
Qed.

Lemma zrange_length (lo hi : Z) :
  Z.of_nat (length (zrange lo hi)) = Z.max 0 (hi - lo + 1).
Proof.
  unfold zrange. rewrite length_map, length_seq. lia.
Qed.

Lemma map_seq_from (A : Type) (f : nat -> A) (a b : nat) :
  map f (seq a b) = map (fun k => f (a + k)%nat) (seq 0 b).
Proof.
  revert a; induction b as [|b IH]; intro a; [reflexivity|].
  cbn [seq map]. rewrite Nat.add_0_r. f_equal.
  rewrite <- (seq_shift b 0), map_map, (IH (S a)).
  apply map_ext. intros k. f_equal. lia.
Qed.

Lemma zrange_split (lo mid hi : Z) :
  lo - 1 <= mid <= hi -> zrange lo hi = zrange lo mid ++ zrange (mid + 1) hi.
Proof.
  intros H. unfold zrange.
  replace (Z.to_nat (hi - lo + 1))
    with (Z.to_nat (mid - lo + 1) + Z.to_nat (hi - (mid + 1) + 1))%nat by lia.
  rewrite seq_app, map_app. f_equal.
  rewrite map_seq_from. apply map_ext. intros k. lia.
Qed.

Lemma countUndefined_nonneg (l : list node) (ks : list Z) :
  0 <= countUndefined l ks.
Proof. unfold countUndefined. lia. Qed.

Lemma countUndefined_app (l : list node) (ks ks' : list Z) :
  countUndefined l (ks ++ ks') = countUndefined l ks + countUndefined l ks'.
Proof.
  unfold countUndefined. rewrite filter_app, length_app. lia.
Qed.

Lemma countUndefined_none (l : list node) (ks : list Z) :
  (forall k, In k ks -> 0 <= k < Z.of_nat (length l)) ->
  countUndefined l ks = 0.
Proof.
  intros H. unfold countUndefined.
  induction ks as [|k ks IH]; [reflexivity|]. cbn [filter].
  rewrite itemAt_defined by (apply H; now left).
  apply IH. intros k' Hk'. apply H. now right.
Qed.

Lemma countUndefined_all (l : list node) (ks : list Z) :
  (forall k, In k ks -> k < 0 \/ Z.of_nat (length l) <= k) ->
  countUndefined l ks = Z.of_nat (length ks).
Proof.
  intros H. unfold countUndefined.
  induction ks as [|k ks IH]; [reflexivity|]. cbn [filter].
  rewrite itemAt_undefined by (apply H; now left).
  cbn [length]. rewrite !Nat2Z.inj_succ. f_equal.
  apply IH. intros k' Hk'. apply H. now right.
Qed.

(** ** Comparisons *)

Lemma gtb_true (a b : Z) : b < a -> (a >? b) = true.
Proof. intros H. rewrite Z.gtb_ltb. now apply Z.ltb_lt. Qed.

Lemma gtb_false (a b : Z) : a <= b -> (a >? b) = false.
Proof. intros H. rewrite Z.gtb_ltb. now apply Z.ltb_ge. Qed.

Lemma geb_true (a b : Z) : b <= a -> (a >=? b) = true.
Proof. intros H. rewrite Z.geb_leb. now apply Z.leb_le. Qed.

Lemma geb_false (a b : Z) : a < b -> (a >=? b) = false.
Proof. intros H. rewrite Z.geb_leb. now apply Z.leb_gt. Qed.

Lemma ltb_true (a b : Z) : a < b -> (a <? b) = true.
Proof. apply Z.ltb_lt. Qed.

Lemma ltb_false (a b : Z) : b <= a -> (a <? b) = false.
Proof. apply Z.ltb_ge. Qed.

(** ** The two ends in loop mode *)

Section LoopEnds.

Variable c : Carousel.
Hypothesis Hloop : loop (options c) = true.
Hypothesis Hfits : windowFits c.
Hypothesis Hcur : inRange c.
Hypothesis Hstep : 1 <= slidesToScroll c.

Lemma backward_count_at_start :
  currentItem c = 0 ->
  countUndefined (items c)
    (map (fun i => currentItem c - i) (rev (zrange 1 (slidesToScroll c))))
  = slidesToScroll c.
Proof.
  intros H0. rewrite countUndefined_all.
  - rewrite length_map, length_rev, zrange_length. lia.
  - intros k Hk. apply in_map_iff in Hk. destruct Hk as (i & <- & Hi).
    apply in_rev in Hi. apply zrange_In in Hi. lia.
Qed.

Lemma backward_count_with_room :
  slidesToScroll c <= currentItem c ->
  countUndefined (items c)
    (map (fun i => currentItem c - i) (rev (zrange 1 (slidesToScroll c))))
  = 0.
Proof.
  intros Hroom. apply countUndefined_none.
  intros k Hk. apply in_map_iff in Hk. destruct Hk as (i & <- & Hi).
  apply in_rev in Hi. apply zrange_In in Hi.
  unfold inRange, len in Hcur. lia.
Qed.

Lemma forward_count_with_room :
  currentItem c + slidesToScroll c + slidesVisible c <= len c ->
  countUndefined (items c)
    (map (fun i => currentItem c + slidesToScroll c - 1 + i)
         (zrange 1 (slidesVisible c)))
  = 0.
Proof.
  intros Hroom. apply countUndefined_none.
  intros k Hk. apply in_map_iff in Hk. destruct Hk as (i & <- & Hi).
  apply zrange_In in Hi. unfold inRange, len in *. lia.
Qed.

Lemma forward_count_at_end :
  slidesToScroll c <= slidesVisible c ->
  len c <= currentItem c + slidesVisible c ->
  slidesToScroll c <=
  countUndefined (items c)
    (map (fun i => currentItem c + slidesToScroll c - 1 + i)
         (zrange 1 (slidesVisible c))).
Proof.
  intros Hsv Hend.
  rewrite (zrange_split 1 (slidesVisible c - slidesToScroll c) (slidesVisible c))
    by lia.
  rewrite map_app, countUndefined_app.
  rewrite (countUndefined_all _ (map _ (zrange (_ + 1) _))).
  - rewrite length_map, zrange_length.
    pose proof (countUndefined_nonneg (items c)
      (map (fun i => currentItem c + slidesToScroll c - 1 + i)
           (zrange 1 (slidesVisible c - slidesToScroll c)))).
    lia.
  - intros k Hk. apply in_map_iff in Hk. destruct Hk as (i & <- & Hi).
    apply zrange_In in Hi. unfold len in *. lia.
Qed.

Lemma finalIndex_before_start :
  currentItem c = 0 \/ slidesToScroll c <= currentItem c ->
  finalIndex c (-1) = len c - slidesVisible c.
Proof.
  intros Hpos. unfold windowFits, inRange in *.
  assert (Es : shortfallIndex c (-1) = -1).
  { unfold shortfallIndex.
    rewrite (gtb_false (-1 + slidesVisible c) (len c)) by lia. cbn [andb].
    rewrite (ltb_true (-1) 0), (ltb_true (-1) (currentItem c)) by lia.
    cbn [andb]. destruct Hpos as [H0|Hroom].
    - rewrite backward_count_at_start by assumption.
      now rewrite Z.ltb_irrefl.
    - rewrite backward_count_with_room by assumption.
      rewrite ltb_true by lia. lia. }
  unfold finalIndex. rewrite Es. unfold clampIndex.
  rewrite ltb_true by lia. now rewrite Hloop.
Qed.

Lemma finalIndex_past_end :
  currentItem c + slidesToScroll c + slidesVisible c <= len c
  \/ (slidesToScroll c <= slidesVisible c
      /\ len c <= currentItem c + slidesVisible c) ->
  finalIndex c (len c) = 0.
Proof.
  intros Hpos. unfold windowFits, inRange in *.
  assert (Es : shortfallIndex c (len c) = len c).
  { unfold shortfallIndex.
    rewrite (gtb_true (len c + slidesVisible c) (len c)) by lia.
    rewrite (gtb_true (len c) (currentItem c)) by lia. cbn [andb].
    destruct Hpos as [Hroom|[Hsv Hend]].
    - rewrite forward_count_with_room by assumption.
      rewrite ltb_true by lia. lia.
    - pose proof (forward_count_at_end Hsv Hend).
      rewrite ltb_false by lia. reflexivity. }
  unfold finalIndex. rewrite Es. unfold clampIndex.
  rewrite ltb_false by lia. rewrite geb_true by lia. cbn [orb].
  now rewrite Hloop.
Qed.

End LoopEnds.

(** ** C2 *)

(** C2, as the code has it: in loop mode, on a carousel whose window fits,
    whose current item is among the slides and whose step is at least one,
    [gotoItem(-1)] lands on [items.length - slidesVisible] when the current
    item is [0] or at least [slidesToScroll], and [gotoItem(items.length)]
    lands on [0] when a whole step and window still fit after the current
    item or when the window already touches the end and the step is no wider
    than the window.  In the other states the index is first adjusted for the
    missing slides. *)
Theorem loop_wraps_at_the_ends (c : Carousel) (w : World) (animation : bool) :
  loop (options c) = true -> windowFits c -> inRange c ->
  1 <= slidesToScroll c ->
  (currentItem c = 0 \/ slidesToScroll c <= currentItem c ->
   exists c' w', gotoItem (-1) animation c w = Ok (c', w')
                 /\ currentItem c' = len c - slidesVisible c)
  /\
  (currentItem c + slidesToScroll c + slidesVisible c <= len c
   \/ (slidesToScroll c <= slidesVisible c
       /\ len c <= currentItem c + slidesVisible c) ->
   exists c' w', gotoItem (len c) animation c w = Ok (c', w')
                 /\ currentItem c' = 0).
Proof.
  intros Hloop Hfits Hcur Hstep. split; intros Hpos;
    rewrite gotoItem_eq; eexists _, _; (split; [reflexivity|]).
  - change (finalIndex c (-1) = len c - slidesVisible c).
    now apply finalIndex_before_start.
  - change (finalIndex c (len c) = 0).
    now apply finalIndex_past_end.
Qed.

(** Three slides, window and step of two, loop mode: after one [next] the
    current item is [1], and [gotoItem(-1)] lands on [0], not on [3 - 2].
    Six slides, window of two, step of three: after one [next] the current
    item is [3], and [gotoItem(6)] lands on [4], not on [0]. *)
Lemma loop_ends_miss_after_adjustment :
  (exists c w,
     andThen (andThen (build 1 3 (modeOptions 2 2 true false)) next)
             (gotoItem (-1) true) = Ok (c, w)
     /\ loop (options c) = true
     /\ currentItem c <> len c - slidesVisible c)
  /\
  (exists c w,
     andThen (andThen (build 1 6 (modeOptions 3 2 true false)) next)
             (gotoItem 6 true) = Ok (c, w)
     /\ loop (options c) = true /\ len c = 6
     /\ currentItem c <> 0).
Proof.
  split; eexists _, _; (split; [vm_compute; reflexivity|]);
    cbn; repeat split; discriminate.
Qed.

Lemma loop_wraps_at_the_ends_witness :
  (exists c' w',
     gotoItem (-1) true (carouselOf (plainOptions 2 2 true false) 0 4 6)
              (freshWorld 9%nat 1024) = Ok (c', w')
     /\ currentItem c' = 4)
  /\
  (exists c' w',
     gotoItem 6 true (carouselOf (plainOptions 2 2 true false) 0 4 6)
              (freshWorld 9%nat 1024) = Ok (c', w')
     /\ currentItem c' = 0).
Proof.
  pose proof (loop_wraps_at_the_ends
                (carouselOf (plainOptions 2 2 true false) 0 4 6)
                (freshWorld 9%nat 1024) true) as H.
  destruct H as [Hback Hfwd].
  - reflexivity.
  - unfold windowFits; cbn; lia.
  - unfold inRange; cbn; lia.
  - cbn; lia.
  - split.
    + apply Hback. right. cbn. lia.
    + apply Hfwd. right. cbn. lia.
Defined.

(** ** The jump of the infinite mode *)

Section InfiniteReset.

Variable c : Carousel.
Hypothesis Hvisible : 1 <= slidesVisible_opt (options c).
Hypothesis Hstep : 1 <= slidesToScroll_opt (options c).
Hypothesis Hoffset :
  offset c = slidesVisible_opt (options c) + slidesToScroll_opt (options c).
Hypothesis Hclones : 2 * offset c <= len c.
Hypothesis Hcur : inRange c.

Lemma slidesVisible_le_option : 1 <= slidesVisible c <= slidesVisible_opt (options c).
Proof. unfold slidesVisible. destruct (isMobile c); lia. Qed.

Lemma finalIndex_jump_forward :
  currentItem c <= slidesToScroll_opt (options c) ->
  finalIndex c (currentItem c + scrollable c) = currentItem c + scrollable c.
Proof.
  intros Hlow. pose proof slidesVisible_le_option as Hsv.
  unfold inRange, scrollable in *.
  unfold finalIndex, shortfallIndex.
  rewrite (gtb_false (_ + slidesVisible c) (len c)) by lia. cbn [andb].
  rewrite (ltb_false (currentItem c + (len c - 2 * offset c)) 0) by lia.
  cbn [andb]. unfold clampIndex.
  rewrite ltb_false, geb_false by lia. cbn [orb].
  rewrite itemAt_defined by (unfold len in *; lia).
  reflexivity.
Qed.

Lemma finalIndex_jump_backward :
  len c - offset c <= currentItem c ->
  finalIndex c (currentItem c - scrollable c) = currentItem c - scrollable c.
Proof.
  intros Hhigh. unfold inRange, scrollable in *.
  unfold finalIndex, shortfallIndex.
  rewrite (gtb_false (currentItem c - (len c - 2 * offset c)) (currentItem c))
    by lia.
  rewrite andb_false_r.
  rewrite (ltb_false (currentItem c - (len c - 2 * offset c)) 0) by lia.
  cbn [andb]. unfold clampIndex.
  rewrite ltb_false, geb_false by lia. cbn [orb].
  rewrite (gtb_false (currentItem c - (len c - 2 * offset c)) (currentItem c))
    by lia.
  now rewrite andb_false_r.
Qed.

End InfiniteReset.

(** ** C4 *)

(** C4: with [loop] and [infinite] both set to [true] in the options, the
    constructor throws, and the page it throws from is the page it was given:
    no element created, none appended, no listener, no timer. *)
Theorem constructor_rejects_loop_with_infinite
  (fuel : nat) (elementEl : node) (children : list node) (u : UserOptions)
  (w : World) :
  u_loop u = Some true -> u_infinite u = Some true ->
  constructor fuel elementEl children u w
  = Throw "A carousel can not be both loop and infinite" w.
Proof.
  intros Hl Hi. unfold constructor, assignOptions. cbn [loop infinite].
  rewrite Hl, Hi. reflexivity.
Qed.

Lemma constructor_rejects_loop_with_infinite_witness :
  build 8 6 (modeOptions 1 1 true true)
  = Throw "A carousel can not be both loop and infinite" (freshWorld 7%nat 1024)
  /\ dom (freshWorld 7%nat 1024) = [].
Proof.
  split; [|reflexivity].
  apply constructor_rejects_loop_with_infinite; reflexivity.
Defined.

(** ** C5 *)

(** [autoplay] never looks at the timers already running: it always adds
    one and forgets the identifier it held. *)
Lemma autoplay_adds_a_timer (c : Carousel) (w : World) :
  timers (snd (autoplay c w)) = timers w ++ [nextTimer w]
  /\ intervalID (fst (autoplay c w)) = Some (nextTimer w).
Proof. split; reflexivity. Qed.

(** C5 fails on the code: a carousel built with [autoplay] has one timer
    running and listens for [focus] on the window with [autoplay] itself;
    when the event comes, a second timer starts next to the first, and
    [stopAutoplay] afterwards clears only the second. *)
Lemma autoplay_twice_leaves_two_timers :
  exists c w c' w',
    andThen (build 8 6 (sixByTwo true false true))
            (fire 8 OnWindow "focus" "") = Ok (c, w)
    /\ timers w = [0%nat; 1%nat]
    /\ intervalID c = Some 1%nat
    /\ stopAutoplay c w = (c', w')
    /\ timers w' = [0%nat].
Proof.
  eexists _, _, _, _.
  split; [vm_compute; reflexivity|].
  split; [reflexivity|]. split; [reflexivity|].
  split; [vm_compute; reflexivity|]. reflexivity.
Qed.

(** ** The scenario of six slides *)

Lemma sixSlides_built (nav pag auto : bool) (fuel : nat) :
  exists c w,
    build (4 + fuel) 6 (sixByTwo nav pag auto) = Ok (c, w)
    /\ sixSlides c /\ currentItem c = 0.
Proof.
  destruct nav, pag, auto; eexists _, _;
    (split; [vm_compute; reflexivity|]);
    unfold sixSlides; cbn; repeat split; reflexivity.
Qed.

Lemma sixSlides_finalIndex (c : Carousel) (k : Z) :
  sixSlides c -> currentItem c = k -> k = 0 \/ k = 2 \/ k = 4 ->
  finalIndex c (k + 2) = Z.min (k + 2) 4.
Proof.
  intros (Hlen & Hmob & Hsv & Hsts & Hloop) Hcur Hk.
  destruct c as [el rt ct o off cbs mob fa iv cur its].
  destruct o as [sts sv lp nav pag inf auto tmo resp].
  cbn in Hlen, Hmob, Hsv, Hsts, Hloop, Hcur. subst mob sv sts lp cur.
  do 7 (destruct its as [|? its]; try discriminate Hlen).
  destruct Hk as [->|[->| ->]]; reflexivity.
Qed.

Lemma sixSlides_next (c : Carousel) (w : World) :
  sixSlides c ->
  currentItem c = 0 \/ currentItem c = 2 \/ currentItem c = 4 ->
  exists c' w',
    next c w = Ok (c', w') /\ sixSlides c'
    /\ currentItem c' = Z.min (currentItem c + 2) 4.
Proof.
  intros Hsix Hk. unfold next. rewrite gotoItem_eq. eexists _, _.
  split; [reflexivity|]. split; [exact Hsix|].
  change (finalIndex c (currentItem c + slidesToScroll c)
          = Z.min (currentItem c + 2) 4).
  assert (Es : slidesToScroll c = 2).
  { unfold slidesToScroll. destruct Hsix as (_ & -> & _ & -> & _). reflexivity. }
  rewrite Es. now apply sixSlides_finalIndex.
Qed.

Lemma sixSlides_nextTimes (k : nat) (c : Carousel) (w : World) :
  sixSlides c ->
  currentItem c = 0 \/ currentItem c = 2 \/ currentItem c = 4 ->
  exists c' w',
    nextTimes k c w = Ok (c', w')
    /\ currentItem c' = Z.min (currentItem c + 2 * Z.of_nat k) 4.
Proof.
  revert c w. induction k as [|k IH]; intros c w Hsix Hk.
  - exists c, w. split; [reflexivity|]. lia.
  - destruct (sixSlides_next c w Hsix Hk) as (c1 & w1 & E & Hsix1 & Hcur1).
    cbn [nextTimes]. rewrite E. cbn [bind].
    destruct (IH c1 w1 Hsix1) as (c' & w' & E' & Hcur'); [lia|].
    exists c', w'. split; [exact E'|]. lia.
Qed.

(** ** C6 *)

(** C6: six children, [slidesVisible = 2], [slidesToScroll = 2], neither loop
    nor infinite, whatever the navigation, pagination and autoplay flags: the
    carousel starts on item [0], and after [k] calls of [next] it is on item
    [min (2k) 4], that is [2] after one call, [4] after two, and [4] after
    every further call. *)
Theorem six_slides_stop_at_four (nav pag auto : bool) (fuel k : nat) :
  exists c w,
    andThen (build (4 + fuel) 6 (sixByTwo nav pag auto)) (nextTimes k) = Ok (c, w)
    /\ currentItem c = Z.min (2 * Z.of_nat k) 4.
Proof.
  destruct (sixSlides_built nav pag auto fuel) as (c0 & w0 & E0 & Hsix & Hcur0).
  destruct (sixSlides_nextTimes k c0 w0 Hsix) as (c & w & E & Hcur); [lia|].
  exists c, w. unfold andThen. rewrite E0. cbn [bind].
  split; [exact E|]. lia.
Qed.

(** ** The pagination loop ends *)

Lemma ceilDiv_step (a b : Z) : 0 < b -> ceilDiv a b = 1 + ceilDiv (a - b) b.
Proof.
  intros Hb. unfold ceilDiv.
  replace (- (a - b)) with (- a + 1 * b) by lia.
  rewrite Z.div_add by lia. lia.
Qed.

Lemma ceilDiv_pos (a b : Z) : 0 < b -> 0 < a -> 0 < ceilDiv a b.
Proof.
  intros Hb Ha. unfold ceilDiv.
  assert (- a / b < 0) by (apply Z.div_lt_upper_bound; lia). lia.
Qed.

Lemma ceilDiv_nonpos (a b : Z) : 0 < b -> a <= 0 -> ceilDiv a b <= 0.
Proof.
  intros Hb Ha. unfold ceilDiv.
  assert (0 <= - a / b) by (apply Z.div_pos; lia). lia.
Qed.

Lemma paginationLoop_ok (c : Carousel) (pagination : node) (fuel : nat) :
  1 <= slidesToScroll_opt (options c) ->
  forall (i : Z) (buttons : list node) (w : World),
    (Z.to_nat (scrollable c - i) < fuel)%nat ->
    exists more w',
      paginationLoop fuel i c pagination buttons w = Ok (buttons ++ more, w')
      /\ Z.of_nat (length more)
         = Z.max 0 (ceilDiv (scrollable c - i) (slidesToScroll_opt (options c))).
Proof.
  intros Hstep. induction fuel as [|fuel IH]; intros i buttons w Hfuel; [lia|].
  cbn [paginationLoop]. fold (scrollable c).
  destruct (Z.ltb_spec i (scrollable c)) as [Hlt|Hge].
  - unfold createDivWithClass. cbv beta iota zeta.
    match goal with
    | |- context [paginationLoop fuel ?j c pagination ?bs ?w1] =>
        destruct (IH j bs w1) as (more & w' & E & Hlen); [lia|]
    end.
    rewrite E. exists (nextNode w :: more), w'. split.
    + rewrite <- app_assoc. reflexivity.
    + cbn [length]. rewrite Nat2Z.inj_succ, Hlen.
      rewrite (ceilDiv_step (scrollable c - i)) by lia.
      replace (scrollable c - i - slidesToScroll_opt (options c))
        with (scrollable c - (i + slidesToScroll_opt (options c))) by lia.
      pose proof (ceilDiv_pos (scrollable c - i) (slidesToScroll_opt (options c))).
      rewrite (ceilDiv_step (scrollable c - i)) in H by lia.
      replace (scrollable c - i - slidesToScroll_opt (options c))
        with (scrollable c - (i + slidesToScroll_opt (options c))) in H by lia.
      lia.
  - exists [], w. split; [now rewrite app_nil_r|].
    pose proof (ceilDiv_nonpos (scrollable c - i) (slidesToScroll_opt (options c))).
    cbn [length]. lia.
Qed.

Lemma createPagination_ok (fuel : nat) (c : Carousel) (w : World) :
  1 <= slidesToScroll_opt (options c) ->
  (Z.to_nat (scrollable c) < fuel)%nat ->
  exists buttons w',
    createPagination fuel c w = Ok (onMove (PaginationObserver buttons) c, w')
    /\ Z.of_nat (length buttons)
       = Z.max 0 (ceilDiv (scrollable c) (slidesToScroll_opt (options c))).
Proof.
  intros Hstep Hfuel. unfold createPagination.
  destruct (match paginationEl w with
            | Some p => (p, w)
            | None => createDivWithClass "carousel__pagination" w
            end) as [pagination w1].
  cbv zeta.
  match goal with
  | |- context [paginationLoop fuel 0 c pagination [] ?w2] =>
      destruct (paginationLoop_ok c pagination fuel Hstep 0 [] w2)
        as (more & w' & E & Hlen);
        [rewrite Z.sub_0_r; exact Hfuel|]
  end.
  rewrite E. cbn [bind app]. exists more, w'. split; [reflexivity|].
  rewrite Z.sub_0_r in Hlen. exact Hlen.
Qed.

(** ** C8 *)

(** Six slides scrolled two at a time: index [4] selects button [2]; index
    [7] gives [1 / 2], rounded up to [1]; index [-1] gives [-1 / 2], rounded
    up to [0]; index [-3] gives [-3 / 2], rounded to [-1], which is no
    button; and with no slide at all the remainder is NaN. *)
Lemma activeIndex_examples :
  let c := carouselOf (plainOptions 2 2 false false) 0 0 6 in
  activeIndex c 4 = Some 2 /\ activeIndex c 7 = Some 1
  /\ activeIndex c (-1) = Some 0 /\ activeIndex c (-3) = Some (-1)
  /\ activeIndex (carouselOf (plainOptions 2 2 false false) 0 0 0) 3 = None.
Proof. repeat split. Qed.

(** C8, as the code has it: the pagination callback, which looks up
    [round(((index - offset) % count) / slidesToScroll)] in its buttons with
    [count = items.length - 2 * offset], returns normally for every integer
    index, every list of buttons and every carousel, and touches no class
    when the lookup finds no button; and [createPagination], when
    [slidesToScroll >= 1], ends and builds [max 0 (ceil(count / slidesToScroll))]
    buttons: [ceil(count / slidesToScroll)] of them when [count >= 0], none
    when [count] is negative. *)
Theorem pagination_never_throws_and_counts :
  (forall (buttons : list node) (index : Z) (c : Carousel) (w : World),
     exists w',
       runObserver (PaginationObserver buttons) index c w = Ok w'
       /\ (elementAt buttons (activeIndex c index) = None ->
           w' = emit (ObserverCall (PaginationObserver buttons) index
                                   (currentItem c)) w))
  /\
  (forall (fuel : nat) (c : Carousel) (w : World),
     1 <= slidesToScroll_opt (options c) ->
     (Z.to_nat (scrollable c) < fuel)%nat ->
     exists buttons w',
       createPagination fuel c w = Ok (onMove (PaginationObserver buttons) c, w')
       /\ Z.of_nat (length buttons)
          = Z.max 0 (ceilDiv (scrollable c) (slidesToScroll_opt (options c)))
       /\ (0 <= scrollable c ->
           Z.of_nat (length buttons)
           = ceilDiv (scrollable c) (slidesToScroll_opt (options c)))
       /\ (scrollable c < 0 -> buttons = [])).
Proof.
  split.
  - intros buttons index c w. rewrite runObserver_eq. eexists.
    split; [reflexivity|]. intros Hnone.
    unfold observerTrace. rewrite Hnone. reflexivity.
  - intros fuel c w Hstep Hfuel.
    destruct (createPagination_ok fuel c w Hstep Hfuel) as (bs & w' & E & Hlen).
    exists bs, w'. split; [exact E|]. split; [exact Hlen|]. split.
    + intros Hcount. rewrite Hlen.
      destruct (Z.eq_dec (scrollable c) 0) as [E0|Hne].
      * rewrite E0. reflexivity.
      * pose proof (ceilDiv_pos (scrollable c) (slidesToScroll_opt (options c))).
        lia.
    + intros Hneg.
      pose proof (ceilDiv_nonpos (scrollable c) (slidesToScroll_opt (options c))).
      destruct bs as [|b bs]; [reflexivity|]. cbn [length] in Hlen. lia.
Qed.

(** One child, window and step of one, infinite, with pagination: the slide
    list has [3] slides around an offset of [2], so [count] is [-1]; the
    pagination has no button, and [ceil(-1 / 1)] is [-1]. *)
Lemma pagination_has_no_button_for_a_negative_count :
  exists c w nextButton prevButton buttons,
    build 4 1 (mkUserOptions (Some 1) (Some 1) (Some false) None (Some true)
                             (Some true) None None None)
    = Ok (c, w)
    /\ moveCallBacks c
       = [NavigationObserver nextButton prevButton; PaginationObserver buttons]
    /\ scrollable c = -1
    /\ length buttons = 0%nat
    /\ Z.of_nat (length buttons)
       <> ceilDiv (scrollable c) (slidesToScroll_opt (options c)).
Proof.
  eexists _, _, _, _, _. split; [vm_compute; reflexivity|].
  split; [reflexivity|]. split; [reflexivity|]. split; [reflexivity|].
  vm_compute. discriminate.
Qed.

Lemma pagination_never_throws_and_counts_witness :
  exists buttons w',
    createPagination 8 (carouselOf (plainOptions 2 2 false false) 0 0 5)
                     (freshWorld 8%nat 1024)
    = Ok (onMove (PaginationObserver buttons)
                 (carouselOf (plainOptions 2 2 false false) 0 0 5), w')
    /\ Z.of_nat (length buttons) = 3.
Proof.
  destruct pagination_never_throws_and_counts as [_ Hcount].
  destruct (Hcount 8%nat (carouselOf (plainOptions 2 2 false false) 0 0 5)
                   (freshWorld 8%nat 1024))
    as (bs & w' & E & Hlen & _).
  - cbn; lia.
  - unfold scrollable; cbn; lia.
  - exists bs, w'. split; [exact E|exact Hlen].
Defined.

(** ** C9 *)

Lemma moveCallBacks_registered (cbs : list observer) (c : Carousel) :
  moveCallBacks (fold_left (fun acc cb => onMove cb acc) cbs c)
  = moveCallBacks c ++ cbs.
Proof.
  revert c. induction cbs as [|cb cbs IH]; intro c; cbn [fold_left].
  - now rewrite app_nil_r.
  - rewrite IH. unfold onMove; cbn. now rewrite <- app_assoc.
Qed.

Lemma gotoItem_calls (index : Z) (animation : bool) (c : Carousel) (w : World) :
  exists c' w',
    gotoItem index animation c w = Ok (c', w')
    /\ c' = moved index c
    /\ observerCalls (dom w')
       = observerCalls (dom w)
         ++ map (fun o => (o, finalIndex c index, finalIndex c index))
                (moveCallBacks c).
Proof.
  rewrite gotoItem_eq. eexists _, _. split; [reflexivity|].
  split; [reflexivity|].
  rewrite dom_emits, !observerCalls_app, observerCalls_moveTrace,
    observerCalls_callBacks.
  reflexivity.
Qed.

(** C9: callbacks registered with [onMove] one after the other are, on every
    [gotoItem] call, entered before the call returns, after the callbacks that
    were there before and in the order of their registration; each gets the
    final index as argument and reads the same final index in
    [currentItem]. *)
Theorem observers_run_in_registration_order
  (cbs : list observer) (index : Z) (animation : bool) (c : Carousel) (w : World) :
  exists c' w',
    gotoItem index animation (fold_left (fun acc cb => onMove cb acc) cbs c) w
    = Ok (c', w')
    /\ observerCalls (dom w')
       = observerCalls (dom w)
         ++ map (fun o => (o, currentItem c', currentItem c'))
                (moveCallBacks c ++ cbs).
Proof.
  destruct (gotoItem_calls index animation
              (fold_left (fun acc cb => onMove cb acc) cbs c) w)
    as (c' & w' & E & -> & Hcalls).
  eexists _, _. split; [exact E|].
  rewrite Hcalls, moveCallBacks_registered. reflexivity.
Qed.

(** ** C10 *)




(** ** Construction, phase by phase *)

Lemma sameSlides_refl (c : Carousel) : sameSlides c c.
Proof. repeat split. Qed.

Lemma sameSlides_trans (a b c : Carousel) :
  sameSlides a b -> sameSlides b c -> sameSlides a c.
Proof.
  intros (Ho & Hf & Hi & Hc) (Ho' & Hf' & Hi' & Hc').
  repeat split; congruence.
Qed.

Lemma sameSlides_scrollable (c c' : Carousel) :
  sameSlides c c' -> scrollable c' = scrollable c.
Proof.
  intros (_ & Hf & Hi & _). unfold scrollable, len. now rewrite Hf, Hi.
Qed.

Lemma wrapChildren_length (containerEl : node) (children : list node) (w : World) :
  length (fst (wrapChildren containerEl children w)) = length children.
Proof.
  revert w. induction children as [|child rest IH]; intro w; [reflexivity|].
  cbn [wrapChildren]. unfold createDivWithClass. cbv beta iota zeta.
  match goal with
  | |- context [wrapChildren containerEl rest ?w1] =>
      specialize (IH w1); destruct (wrapChildren containerEl rest w1) as [its w2]
  end.
  cbn in *. now rewrite IH.
Qed.

Lemma cloneAll_length (srcs : list node) (w : World) :
  length (fst (cloneAll srcs w)) = length srcs.
Proof.
  revert w. induction srcs as [|x rest IH]; intro w; [reflexivity|].
  cbn [cloneAll]. unfold cloneNode. cbv beta iota zeta.
  match goal with
  | |- context [cloneAll rest ?w1] =>
      specialize (IH w1); destruct (cloneAll rest w1) as [ns w2]
  end.
  cbn in *. now rewrite IH.
Qed.

Lemma jsSliceFrom_length (l : list node) (k : Z) :
  0 <= k <= Z.of_nat (length l) ->
  Z.of_nat (length (jsSliceFrom l (Z.of_nat (length l) - k))) = k.
Proof.
  intros Hk. unfold jsSliceFrom, jsSlice.
  rewrite (ltb_false (Z.of_nat (length l) - k) 0) by lia.
  rewrite (ltb_false (Z.of_nat (length l)) 0) by lia.
  rewrite length_firstn, length_skipn. lia.
Qed.

Lemma jsSlice_prefix_length (l : list node) (k : Z) :
  0 <= k <= Z.of_nat (length l) ->
  Z.of_nat (length (jsSlice l 0 k)) = k.
Proof.
  intros Hk. unfold jsSlice.
  rewrite (ltb_false 0 0), (ltb_false k 0) by lia.
  rewrite length_firstn, length_skipn. lia.
Qed.

Lemma mount_fields (elementEl : node) (children : list node) (o : Options)
  (w : World) :
  options (fst (mount elementEl children o w)) = o
  /\ length (items (fst (mount elementEl children o w))) = length children.
Proof.
  unfold mount, createDivWithClass. cbv beta iota zeta.
  match goal with
  | |- context [wrapChildren ?ct children ?w1] =>
      pose proof (wrapChildren_length ct children w1) as Hlen;
        destruct (wrapChildren ct children w1) as [its w2]
  end.
  cbn in *. split; [reflexivity|exact Hlen].
Qed.

Lemma finalIndex_self (c : Carousel) :
  loop (options c) = false -> finalIndex c (currentItem c) = currentItem c.
Proof.
  intros Hloop. unfold finalIndex, shortfallIndex.
  rewrite (gtb_false (currentItem c) (currentItem c)) by lia.
  rewrite andb_false_r.
  rewrite (ltb_false (currentItem c) (currentItem c)) by lia.
  rewrite andb_false_r.
  unfold clampIndex. rewrite Hloop.
  rewrite (gtb_false (currentItem c) (currentItem c)) by lia.
  rewrite andb_false_r.
  destruct (currentItem c <? 0); [reflexivity|].
  destruct (currentItem c >=? len c); reflexivity.
Qed.

Lemma setupInfinite_ok (children : list node) (c : Carousel) (w : World) :
  loop (options c) = false ->
  0 <= slidesVisible_opt (options c) + slidesToScroll_opt (options c) <= len c ->
  exists c' w',
    setupInfinite children c w = Ok (c', w')
    /\ options c' = options c
    /\ offset c' = slidesVisible_opt (options c) + slidesToScroll_opt (options c)
    /\ len c' = len c + 2 * offset c'
    /\ currentItem c' = offset c'.
Proof.
  intros Hloop Hoff. unfold setupInfinite. cbv zeta.
  set (off := slidesVisible_opt (options c) + slidesToScroll_opt (options c)) in *.
  match goal with
  | |- context [cloneAll (jsSliceFrom ?l ?k) ?w1] =>
      pose proof (cloneAll_length (jsSliceFrom l k) w1) as Hb;
        destruct (cloneAll (jsSliceFrom l k) w1) as [before w2]
  end.
  match goal with
  | |- context [cloneAll (jsSlice ?l 0 ?k) ?w1] =>
      pose proof (cloneAll_length (jsSlice l 0 k) w1) as Ha;
        destruct (cloneAll (jsSlice l 0 k) w1) as [after w3]
  end.
  cbn [fst] in Hb, Ha. rewrite gotoItem_eq. eexists _, _.
  split; [reflexivity|]. split; [reflexivity|]. split; [reflexivity|].
  split.
  - unfold len, moved in *.
    cbn [items offset set_fromAction set_currentItem set_items set_offset] in *.
    rewrite !length_app, !Nat2Z.inj_add, Hb, Ha.
    rewrite jsSliceFrom_length, jsSlice_prefix_length by lia. lia.
  - apply (finalIndex_self
             (set_currentItem off (set_items (before ++ items c ++ after)
                                             (set_offset off c)))).
    exact Hloop.
Qed.

Lemma createNavigation_same (c : Carousel) (w : World) :
  sameSlides c (fst (createNavigation c w)).
Proof.
  unfold createNavigation, createDivWithClass. cbv beta iota zeta.
  destruct (loop (options c)); cbn [fst]; repeat split.
Qed.

Lemma furnish_ok (fuel : nat) (c : Carousel) (w : World) :
  1 <= slidesToScroll_opt (options c) ->
  (Z.to_nat (scrollable c) < fuel)%nat ->
  exists c' w', furnish fuel c w = Ok (c', w') /\ sameSlides c c'.
Proof.
  intros Hstep Hfuel. unfold furnish. cbv zeta.
  match goal with
  | |- context [if navigation (options c) then createNavigation c ?w1 else _] =>
      assert (Hnav : sameSlides c
                (fst (if navigation (options c) then createNavigation c w1
                      else (c, w1))))
        by (destruct (navigation (options c));
            [apply createNavigation_same|apply sameSlides_refl]);
        destruct (if navigation (options c) then createNavigation c w1
                  else (c, w1)) as [c1 w2]
  end.
  cbn [fst] in Hnav. pose proof Hnav as (Ho & _).
  destruct (pagination (options c1)).
  - destruct (createPagination_ok fuel c1 w2) as (bs & w3 & E & _).
    + now rewrite Ho.
    + now rewrite (sameSlides_scrollable c c1).
    + rewrite E. cbn [bind]. rewrite forEachCallBack_eq. cbn [bind].
      eexists _, _. split; [reflexivity|].
      apply (sameSlides_trans _ c1); [exact Hnav|]. repeat split.
  - cbn [bind]. rewrite forEachCallBack_eq. cbn [bind].
    eexists _, _. split; [reflexivity|exact Hnav].
Qed.

Lemma wire_ok (fuel : nat) (c : Carousel) (w : World) :
  responsive (options c) = None ->
  exists c' w', wire fuel c w = Ok (c', w') /\ sameSlides c c'.
Proof.
  intros Hresp. unfold wire. rewrite Hresp. cbn [bind]. cbv zeta.
  destruct (infinite (options c)), (autoplay_opt (options c));
    unfold autoplay; cbv beta iota zeta;
    eexists _, _; (split; [reflexivity|]); repeat split.
Qed.

Lemma wire_shape (fuel : nat) (c : Carousel) (w : World) :
  responsive (options c) = None ->
  exists c' w0,
    wire fuel c w = Ok (c', newCarouselTouchPlugin c' w0) /\ sameSlides c c'.
Proof.
  intros Hresp. unfold wire. rewrite Hresp. cbn [bind]. cbv zeta.
  destruct (infinite (options c)), (autoplay_opt (options c));
    unfold autoplay; cbv beta iota zeta;
    eexists _, _; (split; [reflexivity|]); repeat split.
Qed.

(** ** C7 *)

(** C7, as the code has it: built with [infinite] over [n] children, with
    [slidesVisible] and [slidesToScroll] at least one, no breakpoints and
    [slidesVisible + slidesToScroll <= n], the carousel has
    [offset = slidesVisible + slidesToScroll], a slide list of length
    [n + 2 * offset] and [currentItem = offset]. *)
Theorem infinite_layout_with_enough_children
  (fuel : nat) (elementEl : node) (children : list node) (u : UserOptions)
  (w : World) :
  infinite (assignOptions u) = true ->
  loop (assignOptions u) = false ->
  responsive (assignOptions u) = None ->
  1 <= slidesVisible_opt (assignOptions u) ->
  1 <= slidesToScroll_opt (assignOptions u) ->
  slidesVisible_opt (assignOptions u) + slidesToScroll_opt (assignOptions u)
    <= Z.of_nat (length children) ->
  (length children < fuel)%nat ->
  exists c w',
    constructor fuel elementEl children u w = Ok (c, w')
    /\ offset c
       = slidesVisible_opt (assignOptions u) + slidesToScroll_opt (assignOptions u)
    /\ len c = Z.of_nat (length children) + 2 * offset c
    /\ currentItem c = offset c.
Proof.
  intros Hinf Hloop Hresp Hsv Hsts Hn Hfuel.
  unfold constructor. cbv zeta. rewrite Hloop, Hinf. cbn [andb].
  destruct (mount_fields elementEl children (assignOptions u) w) as [Ho Hlen].
  destruct (mount elementEl children (assignOptions u) w) as [c0 w0].
  cbn [fst] in Ho, Hlen.
  destruct (setupInfinite_ok children c0 w0) as (c1 & w1 & E1 & Ho1 & Hoff & Hl1 & Hc1).
  { now rewrite Ho. }
  { rewrite Ho. unfold len. rewrite Hlen. lia. }
  rewrite E1. cbn [bind].
  destruct (furnish_ok fuel c1 w1) as (c2 & w2 & E2 & Hs2).
  { now rewrite Ho1, Ho. }
  { unfold scrollable. rewrite Hl1. unfold len. rewrite Hlen. lia. }
  rewrite E2. cbn [bind].
  destruct (wire_ok fuel c2 w2) as (c3 & w3 & E3 & Hs3).
  { destruct Hs2 as (-> & _). now rewrite Ho1, Ho. }
  exists c3, w3. split; [exact E3|].
  destruct (sameSlides_trans _ _ _ Hs2 Hs3) as (_ & Hf & Hi & Hc).
  unfold len in *. rewrite Ho in Hoff. rewrite Hlen in Hl1.
  rewrite Hf, Hi, Hc. repeat split; lia.
Qed.

(** One child, window and step of one, infinite: the offset is [2] and the
    slide list has [3] slides, not [1 + 2 * 2]. *)
Lemma infinite_layout_short_of_children :
  exists c w,
    build 4 1 (modeOptions 1 1 false true) = Ok (c, w)
    /\ offset c = 2 /\ len c = 3
    /\ len c <> 1 + 2 * offset c.
Proof.
  eexists _, _. split; [vm_compute; reflexivity|].
  cbn. repeat split; discriminate.
Qed.

Lemma infinite_layout_with_enough_children_witness :
  exists c w',
    build 7 6 (modeOptions 1 1 false true) = Ok (c, w')
    /\ offset c = 2 /\ len c = 10 /\ currentItem c = 2.
Proof.
  destruct (infinite_layout_with_enough_children
              7 0%nat (childrenOf 6) (modeOptions 1 1 false true)
              (freshWorld 7%nat 1024))
    as (c & w' & E & Hoff & Hlen & Hcur).
  - reflexivity.
  - reflexivity.
  - reflexivity.
  - cbn; lia.
  - cbn; lia.
  - cbn; lia.
  - cbn; lia.
  - exists c, w'. split; [exact E|].
    cbn in Hoff. rewrite Hoff in Hlen, Hcur. cbn in Hlen.
    repeat split; assumption.
Defined.

(** ** Counting the missing slides exactly *)

Lemma countUndefined_rev (l : list node) (ks : list Z) :
  countUndefined l (rev ks) = countUndefined l ks.
Proof.
  induction ks as [|k ks IH]; [reflexivity|].
  cbn [rev]. rewrite countUndefined_app, IH.
  change (k :: ks) with ([k] ++ ks). rewrite countUndefined_app. lia.
Qed.

Lemma forward_count_exact (c : Carousel) :
  0 <= currentItem c -> 1 <= slidesToScroll c -> 1 <= slidesVisible c ->
  countUndefined (items c)
    (map (fun i => currentItem c + slidesToScroll c - 1 + i)
         (zrange 1 (slidesVisible c)))
  = Z.max 0 (Z.min (slidesVisible c)
                   (currentItem c + slidesToScroll c + slidesVisible c - len c)).
Proof.
  intros Hcur Hsts Hsv. unfold len.
  destruct (Z_le_gt_dec
              (currentItem c + slidesToScroll c + slidesVisible c
               - Z.of_nat (length (items c))) 0) as [Hroom|Hshort].
  - rewrite countUndefined_none; [lia|].
    intros k Hk. apply in_map_iff in Hk. destruct Hk as (i & <- & Hi).
    apply zrange_In in Hi. lia.
  - destruct (Z_le_gt_dec (slidesVisible c)
                (currentItem c + slidesToScroll c + slidesVisible c
                 - Z.of_nat (length (items c)))) as [Hall|Hsome].
    + rewrite countUndefined_all.
      * rewrite length_map, zrange_length. lia.
      * intros k Hk. apply in_map_iff in Hk. destruct Hk as (i & <- & Hi).
        apply zrange_In in Hi. lia.
    + rewrite (zrange_split 1
                 (Z.of_nat (length (items c)) - currentItem c - slidesToScroll c)
                 (slidesVisible c)) by lia.
      rewrite map_app, countUndefined_app.
      rewrite countUndefined_none, countUndefined_all.
      * rewrite length_map, zrange_length. lia.
      * intros k Hk. apply in_map_iff in Hk. destruct Hk as (i & <- & Hi).
        apply zrange_In in Hi. lia.
      * intros k Hk. apply in_map_iff in Hk. destruct Hk as (i & <- & Hi).
        apply zrange_In in Hi. lia.
Qed.

Lemma backward_count_exact (c : Carousel) :
  0 <= currentItem c < len c ->
  countUndefined (items c)
    (map (fun i => currentItem c - i) (rev (zrange 1 (slidesToScroll c))))
  = Z.max 0 (Z.min (slidesToScroll c) (slidesToScroll c - currentItem c)).
Proof.
  intros Hcur. unfold len in Hcur. rewrite map_rev, countUndefined_rev.
  destruct (Z_le_gt_dec (slidesToScroll c) (currentItem c)) as [Hroom|Hshort].
  - rewrite countUndefined_none; [lia|].
    intros k Hk. apply in_map_iff in Hk. destruct Hk as (i & <- & Hi).
    apply zrange_In in Hi. lia.
  - rewrite (zrange_split 1 (currentItem c) (slidesToScroll c)) by lia.
    rewrite map_app, countUndefined_app.
    rewrite countUndefined_none, countUndefined_all.
    + rewrite length_map, zrange_length. lia.
    + intros k Hk. apply in_map_iff in Hk. destruct Hk as (i & <- & Hi).
      apply zrange_In in Hi. lia.
    + intros k Hk. apply in_map_iff in Hk. destruct Hk as (i & <- & Hi).
      apply zrange_In in Hi. lia.
Qed.

(** ** Where a move lands *)

Lemma finalIndex_exact (c : Carousel) (index : Z) :
  1 <= slidesVisible c -> 0 <= currentItem c ->
  0 <= index -> index + slidesVisible c <= len c ->
  finalIndex c index = index.
Proof.
  intros Hsv Hcur Hidx Hfull. unfold finalIndex, shortfallIndex.
  rewrite (gtb_false (index + slidesVisible c) (len c)) by lia. cbn [andb].
  rewrite (ltb_false index 0) by lia. cbn [andb].
  unfold clampIndex. rewrite ltb_false, geb_false by lia. cbn [orb].
  destruct (Z.gtb_spec index (currentItem c)) as [Hgt|Hle].
  - rewrite itemAt_defined by (unfold len in *; lia). reflexivity.
  - now rewrite andb_false_r.
Qed.

Lemma shortfallIndex_next_gt (c : Carousel) :
  1 <= slidesToScroll c ->
  currentItem c < shortfallIndex c (currentItem c + slidesToScroll c).
Proof.
  intros Hsts. unfold shortfallIndex.
  destruct ((currentItem c + slidesToScroll c + slidesVisible c >? len c)
            && (currentItem c + slidesToScroll c >? currentItem c)).
  - match goal with
    | |- context [?cpt <? slidesToScroll c] =>
        destruct (Z.ltb_spec cpt (slidesToScroll c)); lia
    end.
  - rewrite (ltb_false (currentItem c + slidesToScroll c) (currentItem c)) by lia.
    rewrite andb_false_r. lia.
Qed.

Lemma finalIndex_next (c : Carousel) :
  windowFull c -> 1 <= slidesVisible c ->
  1 <= slidesToScroll c <= slidesVisible c + 1 ->
  finalIndex c (currentItem c + slidesToScroll c)
  = if currentItem c + slidesToScroll c + slidesVisible c <=? len c
    then currentItem c + slidesToScroll c
    else if currentItem c + slidesVisible c <? len c
         then len c - slidesVisible c
         else if loop (options c) then 0 else currentItem c.
Proof.
  intros [Hcur Hfull] Hsv Hsts.
  destruct (Z.leb_spec (currentItem c + slidesToScroll c + slidesVisible c) (len c))
    as [Hroom|Hshort].
  - apply finalIndex_exact; lia.
  - destruct (Z.ltb_spec (currentItem c + slidesVisible c) (len c)) as [Hpart|Hend].
    + unfold finalIndex, shortfallIndex.
      rewrite (gtb_true (currentItem c + slidesToScroll c + slidesVisible c) (len c))
        by lia.
      rewrite (gtb_true (currentItem c + slidesToScroll c) (currentItem c)) by lia.
      cbn [andb]. rewrite forward_count_exact by lia.
      rewrite ltb_true by lia.
      replace (currentItem c + slidesToScroll c
               - Z.max 0 (Z.min (slidesVisible c)
                   (currentItem c + slidesToScroll c + slidesVisible c - len c)))
        with (len c - slidesVisible c) by lia.
      unfold clampIndex. rewrite ltb_false, geb_false by lia. cbn [orb].
      rewrite itemAt_defined by (unfold len in *; lia). reflexivity.
    + pose proof (shortfallIndex_next_gt c) as Hgt.
      unfold finalIndex, clampIndex.
      rewrite ltb_false by lia.
      rewrite itemAt_undefined by (unfold len in *; lia).
      rewrite (gtb_true _ (currentItem c)) by lia.
      cbn [andb]. rewrite orb_true_r. reflexivity.
Qed.

Lemma finalIndex_prev (c : Carousel) :
  windowFull c -> 1 <= slidesVisible c -> 1 <= slidesToScroll c ->
  finalIndex c (currentItem c - slidesToScroll c)
  = if slidesToScroll c <=? currentItem c
    then currentItem c - slidesToScroll c
    else if 0 <? currentItem c
         then 0
         else if loop (options c) then len c - slidesVisible c else currentItem c.
Proof.
  intros [Hcur Hfull] Hsv Hsts.
  destruct (Z.leb_spec (slidesToScroll c) (currentItem c)) as [Hroom|Hshort].
  - apply finalIndex_exact; lia.
  - unfold finalIndex, shortfallIndex.
    rewrite (gtb_false (currentItem c - slidesToScroll c) (currentItem c)) by lia.
    rewrite andb_false_r.
    rewrite (ltb_true (currentItem c - slidesToScroll c) 0) by lia.
    rewrite (ltb_true (currentItem c - slidesToScroll c) (currentItem c)) by lia.
    cbn [andb]. rewrite backward_count_exact by lia.
    destruct (Z.ltb_spec 0 (currentItem c)) as [Hpos|Hzero].
    + rewrite ltb_true by lia.
      replace (currentItem c - slidesToScroll c
               + Z.max 0 (Z.min (slidesToScroll c)
                                (slidesToScroll c - currentItem c)))
        with 0 by lia.
      unfold clampIndex. rewrite Z.ltb_irrefl, geb_false by lia. cbn [orb].
      rewrite (gtb_false 0 (currentItem c)) by lia.
      now rewrite andb_false_r.
    + rewrite ltb_false by lia.
      unfold clampIndex. rewrite ltb_true by lia. reflexivity.
Qed.

Lemma slidesVisible_moved (index : Z) (c : Carousel) :
  slidesVisible (moved index c) = slidesVisible c.
Proof. reflexivity. Qed.

Lemma slidesToScroll_moved (index : Z) (c : Carousel) :
  slidesToScroll (moved index c) = slidesToScroll c.
Proof. reflexivity. Qed.

Lemma len_moved (index : Z) (c : Carousel) : len (moved index c) = len c.
Proof. reflexivity. Qed.

Lemma currentItem_moved (index : Z) (c : Carousel) :
  currentItem (moved index c) = finalIndex c index.
Proof. reflexivity. Qed.

Lemma loop_moved (index : Z) (c : Carousel) :
  loop (options (moved index c)) = loop (options c).
Proof. reflexivity. Qed.

Lemma windowFull_next (c : Carousel) :
  windowFull c -> 1 <= slidesVisible c ->
  1 <= slidesToScroll c <= slidesVisible c + 1 ->
  windowFull (moved (currentItem c + slidesToScroll c) c).
Proof.
  intros Hfull Hsv Hsts. unfold windowFull.
  rewrite currentItem_moved, slidesVisible_moved, len_moved.
  rewrite finalIndex_next by assumption. destruct Hfull as [Hcur Hfull].
  destruct (Z.leb_spec (currentItem c + slidesToScroll c + slidesVisible c) (len c));
    [lia|].
  destruct (Z.ltb_spec (currentItem c + slidesVisible c) (len c)); [lia|].
  destruct (loop (options c)); lia.
Qed.

Lemma windowFull_prev (c : Carousel) :
  windowFull c -> 1 <= slidesVisible c -> 1 <= slidesToScroll c ->
  windowFull (moved (currentItem c - slidesToScroll c) c).
Proof.
  intros Hfull Hsv Hsts. unfold windowFull.
  rewrite currentItem_moved, slidesVisible_moved, len_moved.
  rewrite finalIndex_prev by assumption. destruct Hfull as [Hcur Hfull].
  destruct (Z.leb_spec (slidesToScroll c) (currentItem c)); [lia|].
  destruct (Z.ltb_spec 0 (currentItem c)); [lia|].
  destruct (loop (options c)); lia.
Qed.

(** ** Further properties of the moves *)

(** X1: whatever the mode, a request for an index whose window is full
    ([0 <= index] and [index + slidesVisible <= items.length]), made from a
    current item that is not negative, lands on that index. *)
Theorem gotoItem_lands_where_asked
  (index : Z) (animation : bool) (c : Carousel) (w : World) :
  1 <= slidesVisible c -> 0 <= currentItem c ->
  0 <= index -> index + slidesVisible c <= len c ->
  exists c' w', gotoItem index animation c w = Ok (c', w') /\ currentItem c' = index.
Proof.
  intros Hsv Hcur Hidx Hfull. rewrite gotoItem_eq. eexists _, _.
  split; [reflexivity|]. rewrite currentItem_moved.
  now apply finalIndex_exact.
Qed.

Lemma gotoItem_lands_where_asked_witness :
  exists c' w',
    gotoItem 3 false (carouselOf (plainOptions 2 2 true false) 0 4 6)
             (freshWorld 9%nat 1024) = Ok (c', w')
    /\ currentItem c' = 3.
Proof.
  apply gotoItem_lands_where_asked; cbn; lia.
Defined.

(** X2: from a full window, with a step of at least one and at most one more
    than the window, [next] lands on [currentItem + slidesToScroll] when a
    whole step still leaves the window full, on the last full window
    [items.length - slidesVisible] when only a shorter step does, and, from
    the last full window, on [0] in loop mode and on the current item
    otherwise. *)
Theorem next_lands (c : Carousel) (w : World) :
  windowFull c -> 1 <= slidesVisible c ->
  1 <= slidesToScroll c <= slidesVisible c + 1 ->
  exists c' w',
    next c w = Ok (c', w')
    /\ currentItem c'
       = if currentItem c + slidesToScroll c + slidesVisible c <=? len c
         then currentItem c + slidesToScroll c
         else if currentItem c + slidesVisible c <? len c
              then len c - slidesVisible c
              else if loop (options c) then 0 else currentItem c.
Proof.
  intros Hfull Hsv Hsts. unfold next. rewrite gotoItem_eq. eexists _, _.
  split; [reflexivity|]. rewrite currentItem_moved.
  now apply finalIndex_next.
Qed.

Lemma next_lands_witness :
  exists c' w',
    next (carouselOf (plainOptions 2 2 false false) 0 2 5) (freshWorld 8%nat 1024)
    = Ok (c', w')
    /\ currentItem c' = 3.
Proof.
  apply (next_lands (carouselOf (plainOptions 2 2 false false) 0 2 5)
                    (freshWorld 8%nat 1024)).
  - unfold windowFull; cbn; lia.
  - cbn; lia.
  - cbn; lia.
Defined.

(** X3: from a full window, with a step of at least one, [prev] lands on
    [currentItem - slidesToScroll] when that is not negative, on [0] when the
    current item is positive but less than a step away from the start, and,
    from item [0], on [items.length - slidesVisible] in loop mode and on [0]
    otherwise. *)
Theorem prev_lands (c : Carousel) (w : World) :
  windowFull c -> 1 <= slidesVisible c -> 1 <= slidesToScroll c ->
  exists c' w',
    prev c w = Ok (c', w')
    /\ currentItem c'
       = if slidesToScroll c <=? currentItem c
         then currentItem c - slidesToScroll c
         else if 0 <? currentItem c
              then 0
              else if loop (options c) then len c - slidesVisible c
                   else currentItem c.
Proof.
  intros Hfull Hsv Hsts. unfold prev. rewrite gotoItem_eq. eexists _, _.
  split; [reflexivity|]. rewrite currentItem_moved.
  now apply finalIndex_prev.
Qed.

Lemma prev_lands_witness :
  exists c' w',
    prev (carouselOf (plainOptions 3 2 true false) 0 1 7) (freshWorld 10%nat 1024)
    = Ok (c', w')
    /\ currentItem c' = 0.
Proof.
  apply (prev_lands (carouselOf (plainOptions 3 2 true false) 0 1 7)
                    (freshWorld 10%nat 1024)).
  - unfold windowFull; cbn; lia.
  - cbn; lia.
  - cbn; lia.
Defined.

(** X4: with a step of at least one and at most one more than the window,
    every sequence of [next] and [prev] calls that starts from a full window
    ends on a full window: no call leaves an empty place in view. *)
Theorem steps_keep_the_window_full (acts : list action) (c : Carousel) (w : World) :
  Forall isStep acts ->
  windowFull c -> 1 <= slidesVisible c ->
  1 <= slidesToScroll c <= slidesVisible c + 1 ->
  exists c' w', runActions acts c w = Ok (c', w') /\ windowFull c'.
Proof.
  intros Hsteps. revert c w.
  induction Hsteps as [|a acts Ha _ IH]; intros c w Hfull Hsv Hsts.
  - exists c, w. split; [reflexivity|assumption].
  - cbn [runActions]. destruct Ha as [-> | ->]; cbn [runAction].
    + unfold next. rewrite gotoItem_eq. cbn [bind].
      apply IH; [now apply windowFull_next|assumption|assumption].
    + unfold prev. rewrite gotoItem_eq. cbn [bind].
      apply IH; [apply windowFull_prev; [assumption|assumption|lia]
                |assumption|assumption].
Qed.

Lemma steps_keep_the_window_full_witness :
  exists c' w',
    runActions [ANext; ANext; ANext; APrev; APrev; APrev; APrev]
               (carouselOf (plainOptions 2 1 true false) 0 0 4)
               (freshWorld 7%nat 1024) = Ok (c', w')
    /\ windowFull c'.
Proof.
  apply steps_keep_the_window_full.
  - repeat (apply Forall_cons; [unfold isStep; auto|]). apply Forall_nil.
  - unfold windowFull; cbn; lia.
  - cbn; lia.
  - cbn; lia.
Defined.

(** X5: with window and step of at least one, [next] followed by [prev]
    brings back the current item when a whole step still leaves the window
    full, and [prev] followed by [next] brings it back when the current item
    is at least a step away from the start and its window is full. *)
Theorem next_and_prev_undo_each_other (c : Carousel) (w : World) :
  1 <= slidesVisible c -> 1 <= slidesToScroll c ->
  (0 <= currentItem c ->
   currentItem c + slidesToScroll c + slidesVisible c <= len c ->
   exists c' w', andThen (next c w) prev = Ok (c', w')
                 /\ currentItem c' = currentItem c)
  /\
  (slidesToScroll c <= currentItem c ->
   currentItem c + slidesVisible c <= len c ->
   exists c' w', andThen (prev c w) next = Ok (c', w')
                 /\ currentItem c' = currentItem c).
Proof.
  intros Hsv Hsts. split.
  - intros Hcur Hroom. unfold andThen, next. rewrite gotoItem_eq. cbn [bind].
    unfold prev. rewrite gotoItem_eq. eexists _, _. split; [reflexivity|].
    rewrite !currentItem_moved, slidesToScroll_moved.
    rewrite (finalIndex_exact c (currentItem c + slidesToScroll c)) by lia.
    replace (currentItem c + slidesToScroll c - slidesToScroll c)
      with (currentItem c) by lia.
    apply finalIndex_exact;
      rewrite ?slidesVisible_moved, ?len_moved, ?currentItem_moved; try lia.
    rewrite finalIndex_exact by lia. lia.
  - intros Hcur Hfull. unfold andThen, prev. rewrite gotoItem_eq. cbn [bind].
    unfold next. rewrite gotoItem_eq. eexists _, _. split; [reflexivity|].
    rewrite !currentItem_moved, slidesToScroll_moved.
    rewrite (finalIndex_exact c (currentItem c - slidesToScroll c)) by lia.
    replace (currentItem c - slidesToScroll c + slidesToScroll c)
      with (currentItem c) by lia.
    apply finalIndex_exact;
      rewrite ?slidesVisible_moved, ?len_moved, ?currentItem_moved; try lia.
    rewrite finalIndex_exact by lia. lia.
Qed.

Lemma next_and_prev_undo_each_other_witness :
  (exists c' w',
     andThen (next (carouselOf (plainOptions 2 3 false false) 0 2 8)
                   (freshWorld 11%nat 1024)) prev = Ok (c', w')
     /\ currentItem c' = 2)
  /\
  (exists c' w',
     andThen (prev (carouselOf (plainOptions 2 3 false false) 0 2 8)
                   (freshWorld 11%nat 1024)) next = Ok (c', w')
     /\ currentItem c' = 2).
Proof.
  destruct (next_and_prev_undo_each_other
              (carouselOf (plainOptions 2 3 false false) 0 2 8)
              (freshWorld 11%nat 1024)) as [Hnp Hpn].
  - cbn; lia.
  - cbn; lia.
  - split.
    + apply Hnp; cbn; lia.
    + apply Hpn; cbn; lia.
Defined.

Lemma runAction_frame (a : action) (c : Carousel) (w : World) :
  exists c' es,
    runAction a c w = Ok (c', emits es w)
    /\ items c' = items c /\ options c' = options c
    /\ moveCallBacks c' = moveCallBacks c /\ offset c' = offset c
    /\ intervalID c' = intervalID c.
Proof.
  destruct a as [index animation| | |]; cbn [runAction];
    unfold next, prev, resetInfinite.
  1-3: rewrite gotoItem_eq; eexists _, _; split; [reflexivity|];
       repeat split.
  destruct (fromAction c); cbn [negb].
  - destruct (currentItem c <=? slidesToScroll_opt (options c));
      [|destruct (currentItem c >=? len c - offset c)];
      rewrite ?gotoItem_eq; cbn [bind].
    1-2: eexists _, _; split; [reflexivity|]; repeat split.
    exists (set_fromAction false c), []. rewrite emits_nil.
    split; [reflexivity|]. repeat split.
  - exists c, []. rewrite emits_nil. split; [reflexivity|]. repeat split.
Qed.

(** X6: a sequence of [gotoItem], [next], [prev] and [resetInfinite] calls
    always runs to its end, and it registers no listener, starts and stops no
    timer, creates no element, and leaves the slide list, the options, the
    offset and the registered callbacks as they were. *)
Theorem moves_leave_the_page_structure (acts : list action) (c : Carousel)
  (w : World) :
  exists c' w',
    runActions acts c w = Ok (c', w')
    /\ listeners w' = listeners w /\ timers w' = timers w
    /\ nextNode w' = nextNode w
    /\ items c' = items c /\ options c' = options c
    /\ moveCallBacks c' = moveCallBacks c /\ offset c' = offset c
    /\ intervalID c' = intervalID c.
Proof.
  revert c w. induction acts as [|a acts IH]; intros c w.
  - exists c, w. repeat split.
  - destruct (runAction_frame a c w) as (c1 & es & E & Hi & Ho & Hm & Hf & Hv).
    cbn [runActions]. rewrite E. cbn [bind].
    destruct (IH c1 (emits es w))
      as (c' & w' & E' & Hl' & Ht' & Hn' & Hi' & Ho' & Hm' & Hf' & Hv').
    exists c', w'. split; [exact E'|].
    rewrite Hl', Ht', Hn', Hi', Ho', Hm', Hf', Hv'.
    repeat split; assumption.
Qed.

(** ** More on the infinite mode *)

Lemma resetInfinite_rests (c : Carousel) (w : World) :
  restingZone c ->
  exists c', resetInfinite (set_fromAction true c) w = Ok (c', w)
             /\ currentItem c' = currentItem c.
Proof.
  intros [Hlow Hhigh]. unfold resetInfinite.
  change (fromAction (set_fromAction true c)) with true. cbn [negb].
  change (currentItem (set_fromAction true c)) with (currentItem c).
  change (options (set_fromAction true c)) with (options c).
  change (len (set_fromAction true c)) with (len c).
  change (offset (set_fromAction true c)) with (offset c).
  rewrite (proj2 (Z.leb_gt _ _)) by lia.
  rewrite geb_false by lia. cbn [bind].
  eexists. split; reflexivity.
Qed.

(** X7: on an infinite carousel built over at least [offset] children
    ([offset = slidesVisible + slidesToScroll], both at least one,
    [items.length >= 3 * offset]) with the current item among the slides and
    [fromAction] set, [resetInfinite] leaves the current item strictly between
    [slidesToScroll] and [items.length - offset], on a copy of the same slide
    (the same position modulo [items.length - 2 * offset]); from there a
    further [resetInfinite] does not move, even with [fromAction] set
    again. *)
Theorem resetInfinite_settles (c : Carousel) (w : World) :
  1 <= slidesVisible_opt (options c) ->
  1 <= slidesToScroll_opt (options c) ->
  offset c = slidesVisible_opt (options c) + slidesToScroll_opt (options c) ->
  3 * offset c <= len c ->
  inRange c -> fromAction c = true ->
  exists c' w',
    resetInfinite c w = Ok (c', w')
    /\ restingZone c'
    /\ (currentItem c' - offset c) mod scrollable c
       = (currentItem c - offset c) mod scrollable c
    /\ exists c'', resetInfinite (set_fromAction true c') w' = Ok (c'', w')
                   /\ currentItem c'' = currentItem c'.
Proof.
  intros Hsv Hsts Hoff Hlen Hcur Hfrom.
  assert (Hz : forall i b,
             restingZone (set_fromAction b (moved i c))
             <-> slidesToScroll_opt (options c) < finalIndex c i < len c - offset c)
    by (intros; reflexivity).
  assert (Hrest : forall c1 w1, restingZone c1 ->
             exists c'', resetInfinite (set_fromAction true c1) w1 = Ok (c'', w1)
                         /\ currentItem c'' = currentItem c1)
    by (intros; now apply resetInfinite_rests).
  unfold resetInfinite. rewrite Hfrom. cbn [negb]. fold (scrollable c).
  unfold inRange in Hcur.
  destruct (Z.leb_spec (currentItem c) (slidesToScroll_opt (options c)))
    as [Hlow|Hupper].
  - assert (Ef : finalIndex c (currentItem c + scrollable c)
                 = currentItem c + scrollable c)
      by (apply finalIndex_jump_forward; unfold inRange; try assumption; lia).
    rewrite gotoItem_eq. cbn [bind]. eexists _, _. split; [reflexivity|].
    assert (Hzone : restingZone
                      (set_fromAction false (moved (currentItem c + scrollable c) c)))
      by (apply Hz; rewrite Ef; unfold scrollable; lia).
    split; [exact Hzone|]. split; [|now apply Hrest].
    change (currentItem (set_fromAction false (moved (currentItem c + scrollable c) c)))
      with (finalIndex c (currentItem c + scrollable c)).
    rewrite Ef.
    replace (currentItem c + scrollable c - offset c)
      with (currentItem c - offset c + 1 * scrollable c) by lia.
    apply Z_mod_plus_full.
  - destruct (Z.geb_spec (currentItem c) (len c - offset c)) as [Hhigh|Hmid].
    + assert (Eb : finalIndex c (currentItem c - scrollable c)
                   = currentItem c - scrollable c)
        by (apply finalIndex_jump_backward; unfold inRange; try assumption; lia).
      rewrite gotoItem_eq. cbn [bind]. eexists _, _. split; [reflexivity|].
      assert (Hzone : restingZone
                        (set_fromAction false (moved (currentItem c - scrollable c) c)))
        by (apply Hz; rewrite Eb; unfold scrollable; lia).
      split; [exact Hzone|]. split; [|now apply Hrest].
      change (currentItem (set_fromAction false (moved (currentItem c - scrollable c) c)))
        with (finalIndex c (currentItem c - scrollable c)).
      rewrite Eb.
      replace (currentItem c - scrollable c - offset c)
        with (currentItem c - offset c + (-1) * scrollable c) by lia.
      apply Z_mod_plus_full.
    + cbn [bind]. eexists _, _. split; [reflexivity|].
      assert (Hzone : restingZone (set_fromAction false c))
        by (change (slidesToScroll_opt (options c) < currentItem c
                    < len c - offset c); lia).
      split; [exact Hzone|]. split; [reflexivity|now apply Hrest].
Qed.

Lemma resetInfinite_settles_witness :
  exists c' w',
    resetInfinite (set_fromAction true (carouselOf (plainOptions 1 2 false true) 3 13 15))
                  (freshWorld 18%nat 1024) = Ok (c', w')
    /\ restingZone c'.
Proof.
  destruct (resetInfinite_settles
              (set_fromAction true (carouselOf (plainOptions 1 2 false true) 3 13 15))
              (freshWorld 18%nat 1024))
    as (c' & w' & E & Hzone & _).
  - cbn; lia.
  - cbn; lia.
  - reflexivity.
  - cbn; lia.
  - unfold inRange; cbn; lia.
  - reflexivity.
  - exists c', w'. split; assumption.
Defined.

(** ** More on the pagination *)

Lemma paginationLoop_diverges (c : Carousel) (pagination : node) (fuel : nat) :
  slidesToScroll_opt (options c) <= 0 ->
  forall (i : Z) (buttons : list node) (w : World),
    i < scrollable c ->
    paginationLoop fuel i c pagination buttons w = Diverge.
Proof.
  intros Hstep. induction fuel as [|fuel IH]; intros i buttons w Hi;
    [reflexivity|].
  cbn [paginationLoop]. fold (scrollable c). rewrite ltb_true by exact Hi.
  unfold createDivWithClass. cbv beta iota zeta. apply IH. lia.
Qed.

(** X8: with [slidesToScroll <= 0] in the options and at least one slide
    outside the cloned borders, the loop of [createPagination] never reaches
    its bound: the call ends for no amount of fuel. *)
Theorem createPagination_never_ends_without_step
  (fuel : nat) (c : Carousel) (w : World) :
  slidesToScroll_opt (options c) <= 0 -> 0 < scrollable c ->
  createPagination fuel c w = Diverge.
Proof.
  intros Hstep Hcount. unfold createPagination.
  destruct (match paginationEl w with
            | Some p => (p, w)
            | None => createDivWithClass "carousel__pagination" w
            end) as [pagination w1].
  cbv zeta. rewrite paginationLoop_diverges by assumption. reflexivity.
Qed.

Lemma createPagination_never_ends_without_step_witness :
  createPagination 1000 (carouselOf (plainOptions 0 1 false false) 0 0 3)
                   (freshWorld 6%nat 1024) = Diverge.
Proof.
  apply createPagination_never_ends_without_step.
  - cbn; lia.
  - unfold scrollable; cbn; lia.
Defined.

Lemma map_seq_succ (A : Type) (g : nat -> A) (n : nat) :
  map g (seq 0 (S n)) = g 0%nat :: map (fun k => g (S k)) (seq 0 n).
Proof.
  cbn [seq map]. f_equal. now rewrite <- seq_shift, map_map.
Qed.

Lemma paginationLoop_listeners (c : Carousel) (pagination : node) (fuel : nat) :
  1 <= slidesToScroll_opt (options c) ->
  forall (i : Z) (buttons : list node) (w : World),
    (Z.to_nat (scrollable c - i) < fuel)%nat ->
    exists more w',
      paginationLoop fuel i c pagination buttons w = Ok (buttons ++ more, w')
      /\ listeners w'
         = listeners w
           ++ map (fun k => (OnNode (nth k more 0%nat), "click"%string,
                             HGoto (i + Z.of_nat k * slidesToScroll_opt (options c))))
                  (seq 0 (length more)).
Proof.
  intros Hstep. induction fuel as [|fuel IH]; intros i buttons w Hfuel; [lia|].
  cbn [paginationLoop]. fold (scrollable c).
  destruct (Z.ltb_spec i (scrollable c)) as [Hlt|Hge].
  - unfold createDivWithClass. cbv beta iota zeta.
    match goal with
    | |- context [paginationLoop fuel ?j c pagination ?bs ?w1] =>
        destruct (IH j bs w1) as (more & w' & E & Hl); [lia|]
    end.
    rewrite E. exists (nextNode w :: more), w'. split.
    + rewrite <- app_assoc. reflexivity.
    + rewrite Hl. cbn [length]. rewrite map_seq_succ.
      cbn [listeners appendChild emit set_dom addEventListener set_listeners
           emits set_nextNode].
      rewrite <- app_assoc. cbn [app nth]. do 2 f_equal.
      * do 2 f_equal. lia.
      * apply map_ext. intros k. do 2 f_equal. lia.
  - exists [], w. split; [now rewrite app_nil_r|].
    cbn. now rewrite app_nil_r.
Qed.

(** X9: when [slidesToScroll >= 1], [createPagination] ends and registers,
    after the listeners already there and in the order of the buttons, one
    click listener per button: the one of the [k]-th button asks for
    [gotoItem(k * slidesToScroll + offset)]. *)
Theorem pagination_buttons_ask_for_their_slide
  (fuel : nat) (c : Carousel) (w : World) :
  1 <= slidesToScroll_opt (options c) ->
  (Z.to_nat (scrollable c) < fuel)%nat ->
  exists buttons w',
    createPagination fuel c w = Ok (onMove (PaginationObserver buttons) c, w')
    /\ listeners w'
       = listeners w
         ++ map (fun k => (OnNode (nth k buttons 0%nat), "click"%string,
                           HGoto (Z.of_nat k * slidesToScroll_opt (options c))))
                (seq 0 (length buttons))
    /\ forall (i : Z) (key : string) (c1 : Carousel) (w1 : World),
         runHandler fuel (HGoto i) key c1 w1 = gotoItem (i + offset c1) true c1 w1.
Proof.
  intros Hstep Hfuel. unfold createPagination.
  destruct (match paginationEl w with
            | Some p => (p, w)
            | None => createDivWithClass "carousel__pagination" w
            end) as [pagination w1] eqn:Ep.
  assert (Hl1 : listeners w1 = listeners w).
  { destruct (paginationEl w); injection Ep as <- <-; reflexivity. }
  cbv zeta.
  match goal with
  | |- context [paginationLoop fuel 0 c pagination [] ?w2] =>
      destruct (paginationLoop_listeners c pagination fuel Hstep 0 [] w2)
        as (more & w' & E & Hl);
        [rewrite Z.sub_0_r; exact Hfuel|]
  end.
  rewrite E. cbn [bind app]. exists more, w'. split; [reflexivity|].
  split; [|reflexivity].
  rewrite Hl. cbn [listeners set_paginationEl appendChild emit set_dom].
  rewrite Hl1. reflexivity.
Qed.

Lemma pagination_buttons_ask_for_their_slide_witness :
  exists buttons w',
    createPagination 8 (carouselOf (plainOptions 2 2 false false) 0 0 5)
                     (freshWorld 8%nat 1024)
    = Ok (onMove (PaginationObserver buttons)
                 (carouselOf (plainOptions 2 2 false false) 0 0 5), w')
    /\ listeners w'
       = map (fun k => (OnNode (nth k buttons 0%nat), "click"%string,
                        HGoto (Z.of_nat k * 2)))
             (seq 0 (length buttons)).
Proof.
  destruct (pagination_buttons_ask_for_their_slide
              8 (carouselOf (plainOptions 2 2 false false) 0 0 5)
              (freshWorld 8%nat 1024)) as (bs & w' & E & Hl & _).
  - cbn; lia.
  - unfold scrollable; cbn; lia.
  - exists bs, w'. split; [exact E|exact Hl].
Defined.

Lemma activeIndex_in_range (c : Carousel) (index : Z) :
  1 <= slidesToScroll_opt (options c) ->
  0 <= index - offset c < scrollable c ->
  activeIndex c index
  = Some ((2 * (index - offset c) + slidesToScroll_opt (options c))
          / (2 * slidesToScroll_opt (options c))).
Proof.
  intros Hstep Hidx. unfold scrollable in Hidx. unfold activeIndex, jsRem.
  rewrite (proj2 (Z.eqb_neq _ _)) by lia.
  rewrite Z.rem_small by lia. unfold jsRoundDiv.
  rewrite (proj2 (Z.eqb_neq _ _)) by lia. reflexivity.
Qed.

Lemma activeIndex_multiple (c : Carousel) (k : Z) :
  1 <= slidesToScroll_opt (options c) ->
  0 <= k -> k * slidesToScroll_opt (options c) < scrollable c ->
  activeIndex c (k * slidesToScroll_opt (options c) + offset c) = Some k.
Proof.
  intros Hstep Hk Hlt. rewrite activeIndex_in_range by nia.
  f_equal. symmetry.
  apply (Z.div_unique _ _ k (slidesToScroll_opt (options c))); [left; lia|nia].
Qed.

(** X10: with [slidesToScroll >= 1], for an index among the slides outside
    the cloned borders ([offset <= index < offset + count]), the pagination
    callback looks up the button nearest to [(index - offset) / slidesToScroll],
    the higher one on a tie; in particular the index
    [k * slidesToScroll + offset] that the [k]-th button asks for selects
    button [k]. *)
Theorem pagination_selects_the_nearest_button (c : Carousel) (index : Z) :
  1 <= slidesToScroll_opt (options c) ->
  0 <= index - offset c < scrollable c ->
  (exists r,
     activeIndex c index = Some r
     /\ 2 * slidesToScroll_opt (options c) * r
        <= 2 * (index - offset c) + slidesToScroll_opt (options c)
        < 2 * slidesToScroll_opt (options c) * (r + 1))
  /\ (forall k, index = k * slidesToScroll_opt (options c) + offset c ->
                activeIndex c index = Some k).
Proof.
  intros Hstep Hidx. split.
  - rewrite activeIndex_in_range by assumption. eexists. split; [reflexivity|].
    pose proof (Z.mul_div_le
                  (2 * (index - offset c) + slidesToScroll_opt (options c))
                  (2 * slidesToScroll_opt (options c))) as Hle.
    pose proof (Z.mul_succ_div_gt
                  (2 * (index - offset c) + slidesToScroll_opt (options c))
                  (2 * slidesToScroll_opt (options c))) as Hgt.
    lia.
  - intros k ->. apply activeIndex_multiple; nia.
Qed.

Lemma pagination_selects_the_nearest_button_witness :
  (exists r,
     activeIndex (carouselOf (plainOptions 2 1 false true) 3 0 12) 6 = Some r
     /\ 2 * 2 * r <= 2 * (6 - 3) + 2 < 2 * 2 * (r + 1))
  /\ (forall k, 6 = k * 2 + 3 ->
                activeIndex (carouselOf (plainOptions 2 1 false true) 3 0 12) 6
                = Some k).
Proof.
  apply (pagination_selects_the_nearest_button
           (carouselOf (plainOptions 2 1 false true) 3 0 12) 6).
  - cbn; lia.
  - unfold scrollable; cbn; lia.
Defined.

(** X11: with [slidesToScroll >= 1] and at least one slide outside the
    cloned borders, an index at or after [offset] and the index one whole
    round ([items.length - 2 * offset]) further select the same button, so a
    trailing clone selects the button of the slide it copies; an index before
    [offset], less than a round and more than half a step away from it, finds
    no button, and the callback then leaves every class as it is. *)
Theorem pagination_on_the_cloned_borders (c : Carousel) (index : Z) :
  1 <= slidesToScroll_opt (options c) -> 0 < scrollable c ->
  (offset c <= index ->
   activeIndex c (index + scrollable c) = activeIndex c index)
  /\
  (index < offset c -> offset c - index < scrollable c ->
   slidesToScroll_opt (options c) < 2 * (offset c - index) ->
   forall (buttons : list node) (w : World),
     runObserver (PaginationObserver buttons) index c w
     = Ok (emit (ObserverCall (PaginationObserver buttons) index (currentItem c)) w)).
Proof.
  intros Hstep Hcount. unfold scrollable in *. split.
  - intros Hidx. unfold activeIndex, jsRem.
    rewrite (proj2 (Z.eqb_neq _ _)) by lia.
    replace (index + (len c - 2 * offset c) - offset c)
      with (index - offset c + 1 * (len c - 2 * offset c)) by lia.
    rewrite !Z.rem_mod_nonneg by lia.
    now rewrite Z_mod_plus_full.
  - intros Hbefore Hround Hhalf buttons w. rewrite runObserver_eq.
    unfold observerTrace, activeIndex, jsRem.
    rewrite (proj2 (Z.eqb_neq _ _)) by lia.
    replace (index - offset c) with (- (offset c - index)) by lia.
    rewrite Z.rem_opp_l by lia. rewrite Z.rem_small by lia.
    unfold jsRoundDiv. rewrite (proj2 (Z.eqb_neq _ _)) by lia.
    assert (Hneg : (2 * - (offset c - index) + slidesToScroll_opt (options c))
                   / (2 * slidesToScroll_opt (options c)) < 0)
      by (apply Z.div_lt_upper_bound; lia).
    unfold elementAt, itemAt. rewrite ltb_true by exact Hneg.
    reflexivity.
Qed.

Lemma pagination_on_the_cloned_borders_witness :
  activeIndex (carouselOf (plainOptions 1 1 false true) 2 0 10) (3 + 6)
  = activeIndex (carouselOf (plainOptions 1 1 false true) 2 0 10) 3
  /\ runObserver (PaginationObserver [20; 21; 22; 23; 24; 25]%nat) 1
                 (carouselOf (plainOptions 1 1 false true) 2 0 10)
                 (freshWorld 30%nat 1024)
     = Ok (emit (ObserverCall (PaginationObserver [20; 21; 22; 23; 24; 25]%nat) 1 0)
                (freshWorld 30%nat 1024)).
Proof.
  split.
  - apply (pagination_on_the_cloned_borders
             (carouselOf (plainOptions 1 1 false true) 2 0 10) 3);
      unfold scrollable; cbn; lia.
  - apply (pagination_on_the_cloned_borders
             (carouselOf (plainOptions 1 1 false true) 2 0 10) 1);
      unfold scrollable; cbn; lia.
Defined.

(** X12: with window and step of at least one and a current item that is not
    negative, the click listener of the [k]-th pagination button, when the
    window of slide [k * slidesToScroll + offset] is full, moves the carousel
    to that slide, and the pagination callback then selects button [k]. *)
Theorem pagination_click_selects_its_button
  (fuel : nat) (key : string) (k : Z) (c : Carousel) (w : World) :
  1 <= slidesVisible c -> 1 <= slidesToScroll_opt (options c) ->
  0 <= currentItem c -> 0 <= offset c -> 0 <= k ->
  k * slidesToScroll_opt (options c) < scrollable c ->
  k * slidesToScroll_opt (options c) + offset c + slidesVisible c <= len c ->
  exists c' w',
    runHandler fuel (HGoto (k * slidesToScroll_opt (options c))) key c w
    = Ok (c', w')
    /\ currentItem c' = k * slidesToScroll_opt (options c) + offset c
    /\ activeIndex c' (currentItem c') = Some k.
Proof.
  intros Hsv Hstep Hcur Hoff Hk Hcount Hfull. cbn [runHandler].
  rewrite gotoItem_eq. eexists _, _. split; [reflexivity|].
  rewrite currentItem_moved.
  rewrite finalIndex_exact by nia. split; [reflexivity|].
  change (activeIndex c (k * slidesToScroll_opt (options c) + offset c) = Some k).
  now apply activeIndex_multiple.
Qed.

Lemma pagination_click_selects_its_button_witness :
  exists c' w',
    runHandler 0 (HGoto (2 * 2)) "" (carouselOf (plainOptions 2 2 false false) 0 0 6)
               (freshWorld 9%nat 1024) = Ok (c', w')
    /\ currentItem c' = 4
    /\ activeIndex c' (currentItem c') = Some 2.
Proof.
  apply (pagination_click_selects_its_button
           0 "" 2 (carouselOf (plainOptions 2 2 false false) 0 0 6)
           (freshWorld 9%nat 1024));
    unfold scrollable; cbn; lia.
Defined.

(** ** Timers *)

Lemma remove_self (id : nat) : remove Nat.eq_dec id [id] = [].
Proof. cbn. destruct (Nat.eq_dec id id); [reflexivity|congruence]. Qed.

Lemma existsb_removed (id : nat) (l : list nat) :
  existsb (Nat.eqb id) (remove Nat.eq_dec id l) = false.
Proof.
  induction l as [|x l IH]; [reflexivity|]. cbn [remove].
  destruct (Nat.eq_dec id x) as [->|Hne]; [exact IH|].
  cbn [existsb]. rewrite IH.
  now rewrite (proj2 (Nat.eqb_neq id x) Hne).
Qed.

Lemma pauseResume_one_timer (c : Carousel) (w : World) (id : nat) :
  intervalID c = Some id -> timers w = [id] ->
  timers (snd (pauseResume (c, w))) = [nextTimer w]
  /\ intervalID (fst (pauseResume (c, w))) = Some (nextTimer w).
Proof.
  intros Hid Ht. unfold pauseResume, stopAutoplay. cbn [fst snd].
  rewrite Hid, Ht, remove_self. split; reflexivity.
Qed.

(** X13: when exactly the timer named by [intervalID] is running, any number
    of [stopAutoplay]-then-[autoplay] rounds (the pointer entering and leaving
    the carousel) leaves exactly one timer running, the one [intervalID]
    names. *)
Theorem paired_pause_and_resume_keep_one_timer
  (k : nat) (c : Carousel) (w : World) (id : nat) :
  intervalID c = Some id -> timers w = [id] ->
  exists id',
    timers (snd (Nat.iter k pauseResume (c, w))) = [id']
    /\ intervalID (fst (Nat.iter k pauseResume (c, w))) = Some id'.
Proof.
  intros Hid Ht. induction k as [|k IH].
  - exists id. split; assumption.
  - destruct IH as (id1 & Ht1 & Hid1).
    change (Nat.iter (S k) pauseResume (c, w))
      with (pauseResume (Nat.iter k pauseResume (c, w))).
    destruct (Nat.iter k pauseResume (c, w)) as [c1 w1]. cbn [fst snd] in *.
    exists (nextTimer w1). now apply (pauseResume_one_timer c1 w1 id1).
Qed.

Lemma paired_pause_and_resume_keep_one_timer_witness :
  exists id',
    timers (snd (Nat.iter 3 pauseResume
                   (autoplay (carouselOf (plainOptions 1 1 false false) 0 0 4)
                             (freshWorld 7%nat 1024)))) = [id']
    /\ intervalID (fst (Nat.iter 3 pauseResume
                          (autoplay (carouselOf (plainOptions 1 1 false false) 0 0 4)
                                    (freshWorld 7%nat 1024)))) = Some id'.
Proof.
  apply (paired_pause_and_resume_keep_one_timer
           3 (fst (autoplay (carouselOf (plainOptions 1 1 false false) 0 0 4)
                            (freshWorld 7%nat 1024)))
           (snd (autoplay (carouselOf (plainOptions 1 1 false false) 0 0 4)
                          (freshWorld 7%nat 1024))) 0%nat);
    reflexivity.
Defined.

(** X14: after [stopAutoplay] the timer that [intervalID] names is no longer
    among the running ones, and a tick of it leaves the carousel and the page
    as they are; [intervalID] itself keeps naming it. *)
Theorem stopped_timer_moves_nothing (c : Carousel) (w : World) (id : nat) :
  intervalID c = Some id ->
  ~ In id (timers (snd (stopAutoplay c w)))
  /\ tick id (fst (stopAutoplay c w)) (snd (stopAutoplay c w))
     = Ok (stopAutoplay c w)
  /\ intervalID (fst (stopAutoplay c w)) = Some id.
Proof.
  intros Hid. unfold stopAutoplay. rewrite Hid. cbn [fst snd]. split; [|split].
  - cbn. apply remove_In.
  - unfold tick.
    change (timers (emit (ClearInterval id)
                         (set_timers (remove Nat.eq_dec id (timers w))
                                     (nextTimer w) w)))
      with (remove Nat.eq_dec id (timers w)).
    now rewrite existsb_removed.
  - exact Hid.
Qed.

Lemma stopped_timer_moves_nothing_witness :
  tick 0
       (fst (stopAutoplay
               (fst (autoplay (carouselOf (plainOptions 1 1 false false) 0 0 4)
                              (freshWorld 7%nat 1024)))
               (snd (autoplay (carouselOf (plainOptions 1 1 false false) 0 0 4)
                              (freshWorld 7%nat 1024)))))
       (snd (stopAutoplay
               (fst (autoplay (carouselOf (plainOptions 1 1 false false) 0 0 4)
                              (freshWorld 7%nat 1024)))
               (snd (autoplay (carouselOf (plainOptions 1 1 false false) 0 0 4)
                              (freshWorld 7%nat 1024)))))
  = Ok (stopAutoplay
          (fst (autoplay (carouselOf (plainOptions 1 1 false false) 0 0 4)
                         (freshWorld 7%nat 1024)))
          (snd (autoplay (carouselOf (plainOptions 1 1 false false) 0 0 4)
                         (freshWorld 7%nat 1024)))).
Proof.
  apply (stopped_timer_moves_nothing
           (fst (autoplay (carouselOf (plainOptions 1 1 false false) 0 0 4)
                          (freshWorld 7%nat 1024)))
           (snd (autoplay (carouselOf (plainOptions 1 1 false false) 0 0 4)
                          (freshWorld 7%nat 1024))) 0%nat).
  reflexivity.
Defined.

(** ** Breakpoints *)

Lemma selectBreakpoint_keeps (width : Z) (bps : list (Z * (Z * Z))) (o : Options) :
  loop (selectBreakpoint width bps o) = loop o
  /\ navigation (selectBreakpoint width bps o) = navigation o
  /\ pagination (selectBreakpoint width bps o) = pagination o
  /\ infinite (selectBreakpoint width bps o) = infinite o
  /\ autoplay_opt (selectBreakpoint width bps o) = autoplay_opt o
  /\ autoplayTimeout (selectBreakpoint width bps o) = autoplayTimeout o
  /\ responsive (selectBreakpoint width bps o) = responsive o.
Proof.
  unfold selectBreakpoint.
  destruct (rev (matching width bps)) as [|[res [s v]] rest];
    repeat split; reflexivity.
Qed.

Lemma fold_applyBreakpoint (width : Z) (bps : list (Z * (Z * Z))) (o : Options) :
  fold_left (applyBreakpoint width) bps o = selectBreakpoint width bps o.
Proof.
  induction bps as [|[res [s v]] bps IH] using rev_ind; [reflexivity|].
  rewrite fold_left_app. cbn [fold_left]. rewrite IH.
  destruct (selectBreakpoint_keeps width bps o)
    as (Hl & Hn & Hp & Hi & Ha & Ht & Hr).
  unfold applyBreakpoint.
  unfold selectBreakpoint at 9, matching. rewrite filter_app. cbn [filter fst].
  destruct (width >=? res).
  - rewrite rev_app_distr. cbn [rev app]. unfold withWindow.
    rewrite Hl, Hn, Hp, Hi, Ha, Ht, Hr. reflexivity.
  - rewrite app_nil_r. reflexivity.
Qed.

Lemma fold_left_emit (A : Type) (f : A -> effect) (l : list A) (w : World) :
  fold_left (fun acc x => emit (f x) acc) l w = emits (map f l) w.
Proof.
  revert w. induction l as [|x l IH]; intro w; cbn [fold_left map].
  - now rewrite emits_nil.
  - rewrite IH, emit_as_emits, emits_emits. reflexivity.
Qed.

Lemma setStyle_eq (c : Carousel) (w : World) :
  setStyle c w
  = emits (ContainerWidth (container c) (len c) (slidesVisible c)
           :: map (fun item => ItemWidth item (len c) (slidesVisible c)) (items c))
          w.
Proof.
  unfold setStyle. cbv zeta.
  rewrite (fold_left_emit node (fun item => ItemWidth item (len c) (slidesVisible c))).
  rewrite emit_as_emits, emits_emits. reflexivity.
Qed.

Lemma observerCalls_widths (l : list node) (n v : Z) :
  observerCalls (map (fun item => ItemWidth item n v) l) = [].
Proof. induction l; cbn; auto. Qed.

Lemma paginationLoop_world (c : Carousel) (pagination : node) (fuel : nat) :
  forall (i : Z) (buttons : list node) (w : World) (r : list node) (w' : World),
    paginationLoop fuel i c pagination buttons w = Ok (r, w') ->
    observerCalls (dom w') = observerCalls (dom w)
    /\ timers w' = timers w /\ paginationEl w' = paginationEl w.
Proof.
  induction fuel as [|fuel IH]; intros i buttons w r w' H; [discriminate H|].
  cbn [paginationLoop] in H.
  destruct (i <? len c - 2 * offset c).
  - unfold createDivWithClass in H. cbv beta iota zeta in H.
    apply IH in H. destruct H as (Hc & Ht & Hp).
    rewrite Hc, Ht, Hp. cbn. rewrite !observerCalls_app. cbn.
    rewrite !app_nil_r. repeat split.
  - injection H as <- <-. repeat split.
Qed.

Lemma createPagination_world (fuel : nat) (c c' : Carousel) (w w' : World) :
  createPagination fuel c w = Ok (c', w') ->
  observerCalls (dom w') = observerCalls (dom w) /\ timers w' = timers w.
Proof.
  unfold createPagination.
  destruct (paginationEl w) as [p|]; cbv beta iota zeta;
    unfold createDivWithClass; cbv beta iota zeta.
  - destruct (paginationLoop fuel 0 c p [] _) as [[bs w1]| |] eqn:E;
      cbn [bind]; intros H; try discriminate H.
    injection H as <- <-.
    apply paginationLoop_world in E. destruct E as (Hc & Ht & _).
    rewrite Hc, Ht. cbn. rewrite !observerCalls_app. cbn.
    rewrite !app_nil_r. split; reflexivity.
  - destruct (paginationLoop fuel 0 c (nextNode w) [] _) as [[bs w1]| |] eqn:E;
      cbn [bind]; intros H; try discriminate H.
    injection H as <- <-.
    apply paginationLoop_world in E. destruct E as (Hc & Ht & _).
    rewrite Hc, Ht. cbn. rewrite !observerCalls_app. cbn.
    rewrite !app_nil_r. split; reflexivity.
Qed.

(** X15: on a carousel without pagination, [onWindowResize] takes
    [slidesToScroll] and [slidesVisible] from the last breakpoint, in
    iteration order, whose width the viewport reaches, and keeps the options
    when it reaches none; it changes nothing else in the carousel (the current
    item is not adjusted to the new window) and calls every registered
    callback once, in order, with the current item. *)
Theorem resize_takes_the_last_breakpoint_met
  (fuel : nat) (bps : list (Z * (Z * Z))) (c : Carousel) (w : World) :
  responsive (options c) = Some bps ->
  pagination (options c) = false ->
  exists w',
    onWindowResize fuel c w
    = Ok (set_options (selectBreakpoint (innerWidth w) bps (options c)) c, w')
    /\ observerCalls (dom w')
       = observerCalls (dom w)
         ++ map (fun o => (o, currentItem c, currentItem c)) (moveCallBacks c)
    /\ (matching (innerWidth w) bps = [] ->
        selectBreakpoint (innerWidth w) bps (options c) = options c)
    /\ (forall earlier res toScroll visible,
          matching (innerWidth w) bps = earlier ++ [(res, (toScroll, visible))] ->
          selectBreakpoint (innerWidth w) bps (options c)
          = withWindow (options c) toScroll visible).
Proof.
  intros Hresp Hpag. unfold onWindowResize. rewrite Hresp, fold_applyBreakpoint.
  cbv zeta.
  change (options (set_options (selectBreakpoint (innerWidth w) bps (options c)) c))
    with (selectBreakpoint (innerWidth w) bps (options c)).
  destruct (selectBreakpoint_keeps (innerWidth w) bps (options c))
    as (_ & _ & -> & _).
  rewrite Hpag. cbn [bind]. rewrite forEachCallBack_eq. cbn [bind].
  eexists. split; [reflexivity|]. split; [|split].
  - rewrite setStyle_eq, emits_emits, dom_emits, !observerCalls_app.
    cbn [observerCalls]. rewrite observerCalls_widths, observerCalls_callBacks.
    reflexivity.
  - intros Hnone. unfold selectBreakpoint. now rewrite Hnone.
  - intros earlier res s v Hlast. unfold selectBreakpoint.
    rewrite Hlast, rev_app_distr. reflexivity.
Qed.

Lemma resize_takes_the_last_breakpoint_met_witness :
  exists w',
    onWindowResize 0
      (carouselOf (mkOptions 1 1 false true false false false 2000
                             (Some [(600, (2, 2)); (900, (3, 3)); (1200, (4, 4))]))
                  0 0 8)
      (freshWorld 11%nat 1000)
    = Ok (set_options
            (mkOptions 3 3 false true false false false 2000
                       (Some [(600, (2, 2)); (900, (3, 3)); (1200, (4, 4))]))
            (carouselOf (mkOptions 1 1 false true false false false 2000
                                   (Some [(600, (2, 2)); (900, (3, 3)); (1200, (4, 4))]))
                        0 0 8), w').
Proof.
  destruct (resize_takes_the_last_breakpoint_met
              0 [(600, (2, 2)); (900, (3, 3)); (1200, (4, 4))]
              (carouselOf (mkOptions 1 1 false true false false false 2000
                                     (Some [(600, (2, 2)); (900, (3, 3)); (1200, (4, 4))]))
                          0 0 8)
              (freshWorld 11%nat 1000))
    as (w' & E & _).
  - reflexivity.
  - reflexivity.
  - exists w'. exact E.
Defined.

(** X16: on a carousel with pagination, when the step chosen by the
    breakpoints is at least one, [onWindowResize] ends, builds
    [max 0 (ceil(count / slidesToScroll))] new buttons for the new step, and
    registers one more pagination callback after the callbacks already there,
    which all stay registered; every callback, the new one last, is then
    called with the current item. *)
Theorem resize_adds_a_pagination_callback
  (fuel : nat) (bps : list (Z * (Z * Z))) (c : Carousel) (w : World) :
  responsive (options c) = Some bps ->
  pagination (options c) = true ->
  1 <= slidesToScroll_opt (selectBreakpoint (innerWidth w) bps (options c)) ->
  (Z.to_nat (scrollable c) < fuel)%nat ->
  exists buttons w',
    onWindowResize fuel c w
    = Ok (onMove (PaginationObserver buttons)
                 (set_options (selectBreakpoint (innerWidth w) bps (options c)) c),
          w')
    /\ Z.of_nat (length buttons)
       = Z.max 0 (ceilDiv (scrollable c)
                    (slidesToScroll_opt
                       (selectBreakpoint (innerWidth w) bps (options c))))
    /\ observerCalls (dom w')
       = observerCalls (dom w)
         ++ map (fun o => (o, currentItem c, currentItem c))
                (moveCallBacks c ++ [PaginationObserver buttons]).
Proof.
  intros Hresp Hpag Hstep Hfuel. unfold onWindowResize.
  rewrite Hresp, fold_applyBreakpoint. cbv zeta.
  set (c1 := set_options (selectBreakpoint (innerWidth w) bps (options c)) c).
  change (options c1) with (selectBreakpoint (innerWidth w) bps (options c)).
  destruct (selectBreakpoint_keeps (innerWidth w) bps (options c))
    as (_ & _ & -> & _).
  rewrite Hpag.
  destruct (createPagination_ok fuel c1 w) as (bs & w1 & E & Hlen);
    [exact Hstep|exact Hfuel|].
  rewrite E. cbn [bind]. rewrite forEachCallBack_eq. cbn [bind].
  exists bs. eexists. split; [reflexivity|]. split; [exact Hlen|].
  apply createPagination_world in E. destruct E as (Hc & _).
  rewrite setStyle_eq, emits_emits, dom_emits, !observerCalls_app.
  cbn [observerCalls]. rewrite observerCalls_widths, observerCalls_callBacks, Hc.
  reflexivity.
Qed.

Lemma resize_adds_a_pagination_callback_witness :
  exists buttons w',
    onWindowResize 9
      (onMove (PaginationObserver [20; 21; 22; 23]%nat)
         (carouselOf (mkOptions 2 2 false true true false false 2000
                                (Some [(600, (3, 3))]))
                     0 0 8))
      (freshWorld 30%nat 1000)
    = Ok (onMove (PaginationObserver buttons)
            (set_options
               (mkOptions 3 3 false true true false false 2000 (Some [(600, (3, 3))]))
               (onMove (PaginationObserver [20; 21; 22; 23]%nat)
                  (carouselOf (mkOptions 2 2 false true true false false 2000
                                         (Some [(600, (3, 3))]))
                              0 0 8))), w')
    /\ Z.of_nat (length buttons) = 3.
Proof.
  destruct (resize_adds_a_pagination_callback
              9 [(600, (3, 3))]
              (onMove (PaginationObserver [20; 21; 22; 23]%nat)
                 (carouselOf (mkOptions 2 2 false true true false false 2000
                                        (Some [(600, (3, 3))]))
                             0 0 8))
              (freshWorld 30%nat 1000))
    as (bs & w' & E & Hlen & _).
  - reflexivity.
  - reflexivity.
  - cbn; lia.
  - unfold scrollable; cbn; lia.
  - exists bs, w'. split; [exact E|exact Hlen].
Defined.

(** ** Construction succeeds *)

Lemma jsSlice_length_le (l : list node) (start stop : Z) :
  (length (jsSlice l start stop) <= length l)%nat.
Proof.
  unfold jsSlice. rewrite length_firstn, length_skipn. lia.
Qed.

Lemma mount_start (elementEl : node) (children : list node) (o : Options)
  (w : World) :
  offset (fst (mount elementEl children o w)) = 0
  /\ currentItem (fst (mount elementEl children o w)) = 0
  /\ moveCallBacks (fst (mount elementEl children o w)) = []
  /\ fromAction (fst (mount elementEl children o w)) = false.
Proof.
  unfold mount, createDivWithClass. cbv beta iota zeta.
  match goal with
  | |- context [wrapChildren ?ct children ?w1] =>
      destruct (wrapChildren ct children w1) as [its w2]
  end.
  repeat split.
Qed.

Lemma setupInfinite_total (children : list node) (c : Carousel) (w : World) :
  exists c' w',
    setupInfinite children c w = Ok (c', w')
    /\ options c' = options c
    /\ offset c'
       = slidesVisible_opt (options c) + slidesToScroll_opt (options c)
    /\ len c <= len c' <= 3 * len c.
Proof.
  unfold setupInfinite. cbv zeta.
  match goal with
  | |- context [cloneAll (jsSliceFrom ?l ?k) ?w1] =>
      pose proof (cloneAll_length (jsSliceFrom l k) w1) as Hb;
        pose proof (jsSlice_length_le l k (Z.of_nat (length l))) as Hb';
        fold (jsSliceFrom l k) in Hb';
        destruct (cloneAll (jsSliceFrom l k) w1) as [before w2]
  end.
  match goal with
  | |- context [cloneAll (jsSlice ?l 0 ?k) ?w1] =>
      pose proof (cloneAll_length (jsSlice l 0 k) w1) as Ha;
        pose proof (jsSlice_length_le l 0 k) as Ha';
        destruct (cloneAll (jsSlice l 0 k) w1) as [after w3]
  end.
  cbn [fst] in Hb, Ha. rewrite gotoItem_eq. eexists _, _.
  split; [reflexivity|]. split; [reflexivity|]. split; [reflexivity|].
  unfold len, moved in *.
  cbn [items offset set_fromAction set_currentItem set_items set_offset] in *.
  rewrite !length_app. lia.
Qed.

(** X17: when the options do not ask for both [loop] and [infinite], give no
    breakpoints and have [slidesVisible >= 1] and [slidesToScroll >= 1], the
    constructor runs through everything before the touch plugin of line 102
    without throwing, for any number of children, none included, and then
    constructs the plugin, whose class is outside the sources and is taken
    from the spec to return; the carousel holds the merged options and
    between [n] and [3n] slides, and outside the infinite mode exactly the
    [n] children, offset [0] and current item [0]. *)
Theorem constructor_succeeds_without_the_conflict
  (fuel : nat) (elementEl : node) (children : list node) (u : UserOptions)
  (w : World) :
  loop (assignOptions u) && infinite (assignOptions u) = false ->
  responsive (assignOptions u) = None ->
  1 <= slidesVisible_opt (assignOptions u) ->
  1 <= slidesToScroll_opt (assignOptions u) ->
  (3 * length children < fuel)%nat ->
  exists c w0,
    constructor fuel elementEl children u w = Ok (c, newCarouselTouchPlugin c w0)
    /\ options c = assignOptions u
    /\ Z.of_nat (length children) <= len c <= 3 * Z.of_nat (length children)
    /\ (infinite (assignOptions u) = false ->
        offset c = 0 /\ currentItem c = 0
        /\ len c = Z.of_nat (length children)).
Proof.
  intros Hmode Hresp Hsv Hsts Hfuel.
  unfold constructor. cbv zeta. rewrite Hmode.
  destruct (mount_fields elementEl children (assignOptions u) w) as [Ho Hlen].
  destruct (mount_start elementEl children (assignOptions u) w)
    as (Hoff0 & Hcur0 & _).
  destruct (mount elementEl children (assignOptions u) w) as [c0 w0].
  cbn [fst] in Ho, Hlen, Hoff0, Hcur0.
  assert (Hsetup :
            exists c1 w1,
              (if infinite (assignOptions u) then setupInfinite children c0 w0
               else Ok (c0, w0)) = Ok (c1, w1)
              /\ options c1 = assignOptions u
              /\ len c0 <= len c1 <= 3 * len c0
              /\ scrollable c1 <= len c1
              /\ (infinite (assignOptions u) = false -> c1 = c0)).
  { destruct (infinite (assignOptions u)).
    - destruct (setupInfinite_total children c0 w0)
        as (c1 & w1 & E1 & Ho1 & Hoff1 & Hl1).
      exists c1, w1. split; [exact E1|]. split; [congruence|].
      split; [exact Hl1|]. split; [|discriminate].
      unfold scrollable. rewrite Hoff1, Ho. lia.
    - exists c0, w0. split; [reflexivity|]. split; [exact Ho|].
      split; [unfold len; lia|]. split; [|reflexivity].
      unfold scrollable. rewrite Hoff0. lia. }
  destruct Hsetup as (c1 & w1 & E1 & Ho1 & Hl1 & Hscr & Hsame).
  rewrite E1. cbn [bind].
  destruct (furnish_ok fuel c1 w1) as (c2 & w2 & E2 & Hs2).
  { now rewrite Ho1. }
  { unfold len in *. lia. }
  rewrite E2. cbn [bind].
  destruct (wire_shape fuel c2 w2) as (c3 & w3 & E3 & Hs3).
  { destruct Hs2 as (-> & _). now rewrite Ho1. }
  exists c3, w3. split; [exact E3|].
  destruct (sameSlides_trans _ _ _ Hs2 Hs3) as (Ho3 & Hf & Hi & Hc).
  unfold len in *. rewrite Ho3, Hf, Hi, Hc.
  split; [exact Ho1|]. split; [lia|].
  intros Hinf. rewrite (Hsame Hinf). repeat split; try assumption. lia.
Qed.

Lemma constructor_succeeds_without_the_conflict_witness :
  exists c w0,
    build 1 0 (modeOptions 2 3 true false) = Ok (c, newCarouselTouchPlugin c w0)
    /\ options c = assignOptions (modeOptions 2 3 true false)
    /\ len c = 0.
Proof.
  destruct (constructor_succeeds_without_the_conflict
              1 0%nat (childrenOf 0) (modeOptions 2 3 true false)
              (freshWorld 1%nat 1024))
    as (c & w' & E & Ho & Hl & _).
  - reflexivity.
  - reflexivity.
  - cbn; lia.
  - cbn; lia.
  - cbn; lia.
  - exists c, w'. split; [exact E|]. split; [exact Ho|]. cbn in Hl. lia.
Defined.

(** ** The page of script.js *)

Lemma ceilDiv_nonneg (a b : Z) : 0 < b -> 0 <= a -> Z.max 0 (ceilDiv a b) = ceilDiv a b.
Proof.
  intros Hb Ha. destruct (Z.eq_dec a 0) as [->|Hne]; [reflexivity|].
  pose proof (ceilDiv_pos a b). lia.
Qed.

(** X18: for any number [n] of children and any window size, the
    [new Carousel] call of the page runs through everything before the touch
    plugin of line 102 without throwing and then constructs the plugin, whose
    class is outside the sources and is taken from the spec to return; the
    carousel scrolls two slides at a time, shows one slide when [detectMob]
    holds (width at most 800 and height at most 900) and two otherwise, is on
    item [0] with the [n] children as slides, and has exactly two callbacks,
    the one of the navigation and then the one of a pagination of
    [ceil(n / 2)] buttons. *)
Theorem page_carousel_is_built
  (fuel : nat) (carouselEl : node) (children : list node) (height : Z)
  (w : World) :
  (length children < fuel)%nat ->
  exists c w0 nextButton prevButton buttons,
    pageCarousel fuel carouselEl children height w
    = Ok (c, newCarouselTouchPlugin c w0)
    /\ slidesToScroll c = 2
    /\ slidesVisible c = (if detectMob (innerWidth w) height then 1 else 2)
    /\ currentItem c = 0
    /\ length (items c) = length children
    /\ moveCallBacks c
       = [NavigationObserver nextButton prevButton; PaginationObserver buttons]
    /\ Z.of_nat (length buttons) = ceilDiv (Z.of_nat (length children)) 2.
Proof.
  intros Hfuel. unfold pageCarousel, constructor. cbv zeta.
  change (assignOptions (pageOptions (innerWidth w) height))
    with (mkOptions 2 (if detectMob (innerWidth w) height then 1 else 2)
                    false true true false false 2000 None).
  cbn [loop infinite andb].
  unfold mount, createDivWithClass. cbv beta iota zeta.
  match goal with
  | |- context [wrapChildren ?ct children ?w1] =>
      pose proof (wrapChildren_length ct children w1) as Hlen;
        destruct (wrapChildren ct children w1) as [its w2]
  end.
  cbn [fst] in Hlen. cbn [bind]. unfold furnish. cbv zeta.
  cbn [navigation options]. unfold createNavigation, createDivWithClass.
  cbv beta iota zeta. cbn [loop options pagination onMove set_moveCallBacks].
  match goal with
  | |- context [createPagination fuel ?cx ?wx] =>
      destruct (createPagination_ok fuel cx wx) as (bs & w3 & E & Hbs)
  end.
  { cbn. lia. }
  { unfold scrollable, len, onMove, set_moveCallBacks. cbn [items offset]. lia. }
  rewrite E. cbn [bind]. rewrite forEachCallBack_eq. cbn [bind].
  unfold wire.
  cbn [responsive infinite autoplay_opt options onMove set_moveCallBacks bind].
  eexists _, _, _, _, bs. split; [reflexivity|].
  split; [reflexivity|]. split; [reflexivity|]. split; [reflexivity|].
  split; [exact Hlen|]. split; [reflexivity|].
  rewrite Hbs. unfold scrollable, len, onMove, set_moveCallBacks.
  cbn [items offset options slidesToScroll_opt]. rewrite Hlen.
  replace (Z.of_nat (length children) - 2 * 0) with (Z.of_nat (length children))
    by lia.
  apply ceilDiv_nonneg; lia.
Qed.

Lemma page_carousel_is_built_witness :
  exists c w0 nextButton prevButton buttons,
    pageCarousel 6 0%nat (childrenOf 5) 700 (freshWorld 6%nat 640)
    = Ok (c, newCarouselTouchPlugin c w0)
    /\ slidesToScroll c = 2
    /\ slidesVisible c = 1
    /\ currentItem c = 0
    /\ length (items c) = 5%nat
    /\ moveCallBacks c
       = [NavigationObserver nextButton prevButton; PaginationObserver buttons]
    /\ Z.of_nat (length buttons) = 3.
Proof.
  apply (page_carousel_is_built 6 0%nat (childrenOf 5) 700 (freshWorld 6%nat 640)).
  cbn. lia.
Defined.

(** ** The clones of the infinite mode *)

Lemma cloneAll_effects (srcs : list node) (w : World) :
  dom (snd (cloneAll srcs w))
  = dom w ++ cloneEffects srcs (fst (cloneAll srcs w)).
Proof.
  revert w. induction srcs as [|x rest IH]; intro w.
  - cbn. now rewrite app_nil_r.
  - cbn [cloneAll]. unfold cloneNode. cbv beta iota zeta.
    match goal with
    | |- context [cloneAll rest ?w1] =>
        specialize (IH w1); destruct (cloneAll rest w1) as [ns w2]
    end.
    cbn [fst snd] in *. rewrite IH. cbn. rewrite <- app_assoc. reflexivity.
Qed.

Lemma jsSliceFrom_tail (l : list node) (k : Z) :
  0 <= k <= Z.of_nat (length l) ->
  jsSliceFrom l (Z.of_nat (length l) - k)
  = skipn (length l - Z.to_nat k) l.
Proof.
  intros Hk. unfold jsSliceFrom, jsSlice.
  rewrite (ltb_false (Z.of_nat (length l) - k) 0) by lia.
  rewrite (ltb_false (Z.of_nat (length l)) 0) by lia.
  replace (Z.to_nat (Z.min (Z.of_nat (length l) - k) (Z.of_nat (length l))))
    with (length l - Z.to_nat k)%nat by lia.
  apply firstn_all2. rewrite length_skipn. lia.
Qed.

Lemma jsSlice_head (l : list node) (k : Z) :
  0 <= k <= Z.of_nat (length l) ->
  jsSlice l 0 k = firstn (Z.to_nat k) l.
Proof.
  intros Hk. unfold jsSlice.
  rewrite (ltb_false 0 0), (ltb_false k 0) by lia.
  replace (Z.to_nat (Z.min 0 (Z.of_nat (length l)))) with 0%nat by lia.
  cbn [skipn]. f_equal. lia.
Qed.

(** X19: with [0 <= slidesVisible + slidesToScroll <= n] over [n] wrapped
    children, the infinite set-up logs no error and puts [offset] fresh
    elements before the slides and [offset] after them; the first thing it
    does to the page is to clone the last [offset] slides, in order, into the
    leading elements and then the first [offset] slides, in order, into the
    trailing ones. *)
Theorem infinite_borders_copy_the_far_ends
  (children : list node) (c : Carousel) (w : World) :
  0 <= slidesVisible_opt (options c) + slidesToScroll_opt (options c) <= len c ->
  len c <= Z.of_nat (length children) ->
  exists c' w' before after es,
    setupInfinite children c w = Ok (c', w')
    /\ offset c' = slidesVisible_opt (options c) + slidesToScroll_opt (options c)
    /\ items c' = before ++ items c ++ after
    /\ Z.of_nat (length before) = offset c'
    /\ Z.of_nat (length after) = offset c'
    /\ dom w'
       = dom w
         ++ cloneEffects
              (skipn (length (items c) - Z.to_nat (offset c')) (items c)) before
         ++ cloneEffects (firstn (Z.to_nat (offset c')) (items c)) after
         ++ es.
Proof.
  intros Hoff Hn. unfold setupInfinite. cbv zeta.
  change (offset (set_offset ?k c)) with k.
  set (off := slidesVisible_opt (options c) + slidesToScroll_opt (options c)) in *.
  change (offset (set_offset off c)) with off.
  change (items (set_offset off c)) with (items c).
  change (len (set_offset off c)) with (len c).
  rewrite (gtb_false off (Z.of_nat (length children))) by lia.
  unfold len in *.
  rewrite jsSliceFrom_tail, jsSlice_head by lia.
  pose proof (cloneAll_length (skipn (length (items c) - Z.to_nat off) (items c)) w)
    as Hb.
  pose proof (cloneAll_effects (skipn (length (items c) - Z.to_nat off) (items c)) w)
    as Hbe.
  destruct (cloneAll (skipn (length (items c) - Z.to_nat off) (items c)) w)
    as [before w2].
  cbn [fst snd] in Hb, Hbe.
  pose proof (cloneAll_length (firstn (Z.to_nat off) (items c)) w2) as Ha.
  pose proof (cloneAll_effects (firstn (Z.to_nat off) (items c)) w2) as Hae.
  destruct (cloneAll (firstn (Z.to_nat off) (items c)) w2) as [after w3].
  cbn [fst snd] in Ha, Hae.
  rewrite gotoItem_eq. eexists _, _, before, after, _.
  split; [reflexivity|]. split; [reflexivity|]. split; [reflexivity|].
  split; [|split].
  - change (Z.of_nat (length before) = off).
    rewrite Hb, length_skipn. lia.
  - change (Z.of_nat (length after) = off).
    rewrite Ha, length_firstn. lia.
  - rewrite dom_emits, Hae, Hbe.
    change (offset (moved off
              (set_currentItem off
                 (set_items (before ++ items c ++ after) (set_offset off c)))))
      with off.
    rewrite <- !app_assoc. reflexivity.
Qed.

Lemma infinite_borders_copy_the_far_ends_witness :
  exists c' w' before after es,
    setupInfinite (childrenOf 4) (carouselOf (plainOptions 1 1 false true) 0 0 4)
                  (freshWorld 7%nat 1024) = Ok (c', w')
    /\ items c' = before ++ [3; 4; 5; 6]%nat ++ after
    /\ dom w'
       = cloneEffects [5; 6]%nat before ++ cloneEffects [3; 4]%nat after ++ es.
Proof.
  destruct (infinite_borders_copy_the_far_ends
              (childrenOf 4) (carouselOf (plainOptions 1 1 false true) 0 0 4)
              (freshWorld 7%nat 1024))
    as (c' & w' & before & after & es & E & Ho & Hi & Hb & Ha & Hd).
  - cbn; lia.
  - cbn; lia.
  - exists c', w', before, after, es. split; [exact E|]. split; [exact Hi|].
    rewrite Ho in Hd. exact Hd.
Defined.

(** ** The navigation buttons *)

(** X20: without loop, from a full window, with a step of at least one and
    at most one more than the window, the navigation callback called with the
    current item hides the previous button exactly when [prev] would leave the
    current item where it is, and hides the next button exactly when [next]
    would. *)
Theorem navigation_hides_the_moves_that_do_nothing
  (nextButton prevButton : node) (c : Carousel) (w : World) :
  loop (options c) = false ->
  windowFull c -> 1 <= slidesVisible c ->
  1 <= slidesToScroll c <= slidesVisible c + 1 ->
  exists cn wn cp wp w1 forPrev forNext,
    next c w = Ok (cn, wn) /\ prev c w = Ok (cp, wp)
    /\ runObserver (NavigationObserver nextButton prevButton) (currentItem c) c w
       = Ok w1
    /\ dom w1
       = dom w
         ++ [ObserverCall (NavigationObserver nextButton prevButton)
                          (currentItem c) (currentItem c);
             forPrev; forNext]
    /\ (forPrev = ClassAdd prevButton hiddenPrev <-> currentItem cp = currentItem c)
    /\ (forPrev = ClassRemove prevButton hiddenPrev
        <-> currentItem cp <> currentItem c)
    /\ (forNext = ClassAdd nextButton hiddenNext <-> currentItem cn = currentItem c)
    /\ (forNext = ClassRemove nextButton hiddenNext
        <-> currentItem cn <> currentItem c).
Proof.
  intros Hloop Hfull Hsv Hsts.
  unfold next, prev. rewrite !gotoItem_eq, runObserver_eq.
  eexists _, _, _, _, _, _, _.
  split; [reflexivity|]. split; [reflexivity|]. split; [reflexivity|].
  split; [reflexivity|]. rewrite !currentItem_moved.
  rewrite finalIndex_next, finalIndex_prev by (assumption || lia).
  rewrite Hloop. destruct Hfull as [Hcur Hfull].
  repeat split.
  - destruct (Z.eqb_spec (currentItem c) 0) as [E0|Hne]; intros H;
      [|discriminate H].
    rewrite (proj2 (Z.leb_gt _ _)) by lia. rewrite ltb_false by lia.
    reflexivity.
  - destruct (Z.eqb_spec (currentItem c) 0) as [E0|Hne]; [reflexivity|].
    destruct (Z.leb_spec (slidesToScroll c) (currentItem c)); [lia|].
    destruct (Z.ltb_spec 0 (currentItem c)); lia.
  - destruct (Z.eqb_spec (currentItem c) 0) as [E0|Hne]; intros H;
      [discriminate H|].
    destruct (Z.leb_spec (slidesToScroll c) (currentItem c)); [lia|].
    destruct (Z.ltb_spec 0 (currentItem c)); lia.
  - destruct (Z.eqb_spec (currentItem c) 0) as [E0|Hne]; [|reflexivity].
    rewrite (proj2 (Z.leb_gt _ _)) by lia. rewrite ltb_false by lia.
    intros H. now contradiction H.
  - destruct (Z.ltb_spec (currentItem c + slidesVisible c) (len c)) as [Hlt|Hge].
    + rewrite itemAt_defined by (unfold len in *; lia). intros H; discriminate H.
    + rewrite (proj2 (Z.leb_gt _ _)) by lia. reflexivity.
  - destruct (Z.ltb_spec (currentItem c + slidesVisible c) (len c)) as [Hlt|Hge].
    + destruct (Z.leb_spec (currentItem c + slidesToScroll c + slidesVisible c)
                           (len c)); lia.
    + rewrite itemAt_undefined by (unfold len in *; lia). reflexivity.
  - destruct (Z.ltb_spec (currentItem c + slidesVisible c) (len c)) as [Hlt|Hge].
    + destruct (Z.leb_spec (currentItem c + slidesToScroll c + slidesVisible c)
                           (len c)); lia.
    + rewrite itemAt_undefined by (unfold len in *; lia). intros H; discriminate H.
  - destruct (Z.ltb_spec (currentItem c + slidesVisible c) (len c)) as [Hlt|Hge].
    + rewrite itemAt_defined by (unfold len in *; lia). reflexivity.
    + rewrite (proj2 (Z.leb_gt _ _)) by lia. intros H. now contradiction H.
Qed.

Lemma navigation_hides_the_moves_that_do_nothing_witness :
  exists cn wn cp wp w1 forPrev forNext,
    next (carouselOf (plainOptions 2 2 false false) 0 4 6) (freshWorld 9%nat 1024)
    = Ok (cn, wn)
    /\ prev (carouselOf (plainOptions 2 2 false false) 0 4 6) (freshWorld 9%nat 1024)
       = Ok (cp, wp)
    /\ runObserver (NavigationObserver 20%nat 21%nat) 4
                   (carouselOf (plainOptions 2 2 false false) 0 4 6)
                   (freshWorld 9%nat 1024) = Ok w1
    /\ dom w1 = [ObserverCall (NavigationObserver 20%nat 21%nat) 4 4; forPrev; forNext]
    /\ (forPrev = ClassAdd 21%nat hiddenPrev <-> currentItem cp = 4)
    /\ (forPrev = ClassRemove 21%nat hiddenPrev <-> currentItem cp <> 4)
    /\ (forNext = ClassAdd 20%nat hiddenNext <-> currentItem cn = 4)
    /\ (forNext = ClassRemove 20%nat hiddenNext <-> currentItem cn <> 4).
Proof.
  apply (navigation_hides_the_moves_that_do_nothing
           20%nat 21%nat (carouselOf (plainOptions 2 2 false false) 0 4 6)
           (freshWorld 9%nat 1024)).
  - reflexivity.
  - unfold windowFull; cbn; lia.
  - cbn; lia.
  - cbn; lia.
Defined.

(** ** C3 *)

Lemma finalIndex_back (c : Carousel) (target : Z) :
  0 <= target -> target <= currentItem c -> target < len c ->
  finalIndex c target = target.
Proof.
  intros Hpos Hback Hlen. unfold finalIndex, shortfallIndex.
  rewrite (gtb_false target (currentItem c)) by lia. rewrite andb_false_r.
  rewrite (ltb_false target 0) by lia. cbn [andb].
  unfold clampIndex. rewrite ltb_false, geb_false by lia. cbn [orb].
  rewrite (gtb_false target (currentItem c)) by lia.
  now rewrite andb_false_r.
Qed.

(** C3, as the code has it: [resetInfinite] does nothing unless [fromAction]
    is set.  When it is set, a current item [<= slidesToScroll] is sent
    forward by [items.length - 2 * offset] and, failing that, a current item
    [>= items.length - offset] is sent backward by as much, both through
    [gotoItem] with the transition switched off around the transform, so the
    item reached is the one [gotoItem] settles on for that request; any other
    current item and the page stay as they are; [fromAction] is false
    afterwards.  [gotoItem] settles on the requested index itself whenever
    that index is not negative and either its window is full (from a current
    item that is not negative, with a window of at least one) or it is not
    after the current item and is below [items.length]; this is so for both
    jumps on every carousel with [offset = slidesVisible + slidesToScroll],
    both at least one, [items.length >= 2 * offset] and the current item
    among the slides. *)
Theorem resetInfinite_moves_through_gotoItem (c : Carousel) (w : World) :
  (fromAction c = false -> resetInfinite c w = Ok (c, w))
  /\
  (fromAction c = true ->
   exists c' w',
     resetInfinite c w = Ok (c', w')
     /\ fromAction c' = false
     /\ (currentItem c <= slidesToScroll_opt (options c) ->
         currentItem c' = finalIndex c (currentItem c + scrollable c)
         /\ exists es,
              dom w' = dom w
                ++ [Transition (container c) false;
                    Transform (container c)
                              (finalIndex c (currentItem c + scrollable c)) (len c);
                    Reflow (container c);
                    Transition (container c) true] ++ es)
     /\ (slidesToScroll_opt (options c) < currentItem c ->
         len c - offset c <= currentItem c ->
         currentItem c' = finalIndex c (currentItem c - scrollable c)
         /\ exists es,
              dom w' = dom w
                ++ [Transition (container c) false;
                    Transform (container c)
                              (finalIndex c (currentItem c - scrollable c)) (len c);
                    Reflow (container c);
                    Transition (container c) true] ++ es)
     /\ (slidesToScroll_opt (options c) < currentItem c < len c - offset c ->
         currentItem c' = currentItem c /\ w' = w))
  /\
  (forall target,
     0 <= target ->
     (0 <= currentItem c /\ 1 <= slidesVisible c
      /\ target + slidesVisible c <= len c)
     \/ (target <= currentItem c /\ target < len c) ->
     finalIndex c target = target)
  /\
  (1 <= slidesVisible_opt (options c) ->
   1 <= slidesToScroll_opt (options c) ->
   offset c = slidesVisible_opt (options c) + slidesToScroll_opt (options c) ->
   2 * offset c <= len c ->
   inRange c ->
   (currentItem c <= slidesToScroll_opt (options c) ->
    finalIndex c (currentItem c + scrollable c) = currentItem c + scrollable c)
   /\ (len c - offset c <= currentItem c ->
       finalIndex c (currentItem c - scrollable c) = currentItem c - scrollable c)).
Proof.
  split; [|split; [|split]].
  - unfold resetInfinite. intros ->. reflexivity.
  - unfold resetInfinite. intros ->. cbn [negb]. fold (scrollable c).
    destruct (Z.leb_spec (currentItem c) (slidesToScroll_opt (options c)))
      as [Hlow|Hupper].
    + rewrite gotoItem_eq. cbn [bind]. eexists _, _.
      split; [reflexivity|]. split; [reflexivity|]. split; [|split].
      * intros _. split; [reflexivity|].
        eexists. rewrite dom_emits. unfold moveTrace. cbn [app]. reflexivity.
      * intros Hlt. lia.
      * intros Hmid. lia.
    + destruct (Z.geb_spec (currentItem c) (len c - offset c)) as [Hhigh|Hmid].
      * rewrite gotoItem_eq. cbn [bind]. eexists _, _.
        split; [reflexivity|]. split; [reflexivity|]. split; [|split].
        -- intros Hlow. lia.
        -- intros _ _. split; [reflexivity|].
           eexists. rewrite dom_emits. unfold moveTrace. cbn [app]. reflexivity.
        -- intros Hbetween. lia.
      * cbn [bind]. exists (set_fromAction false c), w.
        split; [reflexivity|]. split; [reflexivity|].
        split; [|split]; intros H; try lia.
        split; reflexivity.
  - intros target Hpos [(Hcur & Hsv & Hfull)|(Hback & Hlen)].
    + now apply finalIndex_exact.
    + now apply finalIndex_back.
  - intros Hsv Hsts Hoff Hlen Hcur. split; intros H.
    + apply finalIndex_jump_forward; assumption.
    + apply finalIndex_jump_backward; assumption.
Qed.

(** The infinite carousel built over one child with window and step of one:
    [3] slides around an offset of [2], current item [2], [fromAction] set by
    the constructor's own [gotoItem].  The current item is [>= 3 - 2], the
    jump backward by [3 - 2 * 2] would lead to [3], and [resetInfinite]
    leaves it on [2]. *)
Lemma resetInfinite_stays_when_children_are_too_few :
  exists c w c' w',
    build 4 1 (modeOptions 1 1 false true) = Ok (c, w)
    /\ fromAction c = true
    /\ slidesToScroll_opt (options c) < currentItem c
    /\ len c - offset c <= currentItem c
    /\ resetInfinite c w = Ok (c', w')
    /\ currentItem c' = 2
    /\ currentItem c - (len c - 2 * offset c) = 3
    /\ currentItem c' <> currentItem c - (len c - 2 * offset c).
Proof.
  eexists _, _, _, _. split; [vm_compute; reflexivity|].
  split; [reflexivity|]. split; [cbn; lia|]. split; [cbn; lia|].
  split; [vm_compute; reflexivity|]. split; [reflexivity|].
  split; [reflexivity|]. cbn. discriminate.
Qed.

Lemma resetInfinite_moves_through_gotoItem_witness :
  exists c' w',
    resetInfinite (set_fromAction true (carouselOf (plainOptions 1 1 false true) 2 1 10))
                  (freshWorld 13%nat 1024) = Ok (c', w')
    /\ fromAction c' = false /\ currentItem c' = 7.
Proof.
  destruct (resetInfinite_moves_through_gotoItem
              (set_fromAction true (carouselOf (plainOptions 1 1 false true) 2 1 10))
              (freshWorld 13%nat 1024)) as (_ & Hset & _ & Hland).
  destruct (Hset eq_refl) as (c' & w' & E & Hflag & Hfwd & _ & _).
  exists c', w'. split; [exact E|]. split; [exact Hflag|].
  destruct Hfwd as [Hidx _]; [cbn; lia|]. rewrite Hidx.
  destruct Hland as [Hforward _].
  - cbn; lia.
  - cbn; lia.
  - reflexivity.
  - cbn; lia.
  - unfold inRange; cbn; lia.
  - apply Hforward. cbn; lia.
Defined.

(** ** C1 *)

Lemma clampIndex_inRange (c : Carousel) (index : Z) :
  inRange c -> loopWindowFits c -> 0 <= clampIndex c index < len c.
Proof.
  unfold inRange, loopWindowFits, clampIndex. intros Hc Hw.
  destruct (loop (options c)).
  - destruct (Hw eq_refl) as [Hsv _].
    destruct (Z.ltb_spec index 0); [lia|].
    destruct (Z.geb_spec index (len c)); cbn [orb]; [lia|].
    destruct (isUndefined _ && (index >? currentItem c)); lia.
  - destruct (Z.ltb_spec index 0); [lia|].
    destruct (Z.geb_spec index (len c)); cbn [orb]; [lia|].
    destruct (isUndefined _ && (index >? currentItem c)); lia.
Qed.

Lemma selectBreakpoint_cases (width : Z) (bps : list (Z * (Z * Z))) (o : Options) :
  selectBreakpoint width bps o = o
  \/ exists res toScroll visible,
       In (res, (toScroll, visible)) bps
       /\ selectBreakpoint width bps o = withWindow o toScroll visible.
Proof.
  unfold selectBreakpoint.
  destruct (rev (matching width bps)) as [|[res [s v]] rest] eqn:E;
    [left; reflexivity|].
  right. exists res, s, v. split; [|reflexivity].
  assert (Hin : In (res, (s, v)) (rev (matching width bps)))
    by (rewrite E; now left).
  apply in_rev in Hin. unfold matching in Hin.
  now apply filter_In in Hin.
Qed.

Lemma stepOf_refl (c : Carousel) : stepOf c c.
Proof. unfold stepOf. repeat split; now left. Qed.

Lemma stepOf_moved (index : Z) (c : Carousel) : stepOf c (moved index c).
Proof.
  unfold stepOf. repeat split; [now left|].
  right. exists (shortfallIndex c index). reflexivity.
Qed.

Lemma stepOf_flag (b : bool) (c c1 : Carousel) :
  stepOf c c1 -> stepOf c (set_fromAction b c1).
Proof. intros H. exact H. Qed.

Lemma createPagination_shape (fuel : nat) (c c' : Carousel) (w w' : World) :
  createPagination fuel c w = Ok (c', w') ->
  exists buttons, c' = onMove (PaginationObserver buttons) c.
Proof.
  unfold createPagination.
  destruct (match paginationEl w with
            | Some p => (p, w)
            | None => createDivWithClass "carousel__pagination" w
            end) as [pagination w1].
  cbv zeta.
  destruct (paginationLoop fuel 0 c pagination [] _) as [[bs w2]| |];
    cbn [bind]; intros H; try discriminate H.
  injection H as <- _. now exists bs.
Qed.

Lemma resize_options (c : Carousel) (w : World) :
  match responsive (options c) with
  | Some bps => fold_left (applyBreakpoint (innerWidth w)) bps (options c)
  | None => options c
  end
  = selectBreakpoint (innerWidth w) (breakpointsOf c) (options c).
Proof.
  unfold breakpointsOf. destruct (responsive (options c)) as [bps|];
    [apply fold_applyBreakpoint|reflexivity].
Qed.

Lemma onWindowResize_step (fuel : nat) (c c1 : Carousel) (w w1 : World) :
  onWindowResize fuel c w = Ok (c1, w1) -> stepOf c c1.
Proof.
  unfold onWindowResize. rewrite resize_options. cbv zeta.
  set (c0 := set_options
               (selectBreakpoint (innerWidth w) (breakpointsOf c) (options c)) c).
  assert (H0 : stepOf c c0).
  { unfold stepOf. repeat split; [|now left].
    subst c0. cbn [options set_options].
    destruct (selectBreakpoint_cases (innerWidth w) (breakpointsOf c) (options c))
      as [E|(res & s & v & Hin & E)]; rewrite E.
    - now left.
    - right. now exists res, s, v. }
  destruct (pagination (options c0)).
  - destruct (createPagination fuel c0 w) as [[c2 w2]| |] eqn:E;
      cbn [bind]; intros H; try discriminate H.
    rewrite forEachCallBack_eq in H. cbn [bind] in H. injection H as <- _.
    apply createPagination_shape in E. destruct E as (bs & ->). exact H0.
  - cbn [bind]. rewrite forEachCallBack_eq. cbn [bind].
    intros H. injection H as <- _. exact H0.
Qed.

Ltac same_step := unfold stepOf; repeat split; now left.

Lemma runHandler_step (fuel : nat) (h : handler) (key : string)
  (c c1 : Carousel) (w w1 : World) :
  runHandler fuel h key c w = Ok (c1, w1) -> stepOf c c1.
Proof.
  destruct h; cbn [runHandler]; unfold next, prev.
  - rewrite gotoItem_eq. intros H. injection H as <- _. apply stepOf_moved.
  - rewrite gotoItem_eq. intros H. injection H as <- _. apply stepOf_moved.
  - rewrite gotoItem_eq. intros H. injection H as <- _. apply stepOf_moved.
  - destruct (_ || _); [|destruct (_ || _)]; rewrite ?gotoItem_eq;
      intros H; injection H as <- _;
      try apply stepOf_moved; same_step.
  - apply onWindowResize_step.
  - unfold resetInfinite. destruct (fromAction c); cbn [negb].
    + destruct (currentItem c <=? slidesToScroll_opt (options c));
        [|destruct (currentItem c >=? len c - offset c)];
        rewrite ?gotoItem_eq; cbn [bind]; intros H; injection H as <- _;
        apply stepOf_flag; try apply stepOf_moved; same_step.
    + intros H. injection H as <- _. same_step.
  - unfold autoplay. intros H. injection H as <- _. same_step.
  - unfold stopAutoplay. destruct (intervalID c); intros H;
      injection H as <- _; same_step.
Qed.

Lemma runOperation_step (fuel : nat) (op : operation) (c c1 : Carousel)
  (w w1 : World) :
  runOperation fuel op c w = Ok (c1, w1) -> stepOf c c1.
Proof.
  destruct op as [index animation|cb|h key|id|width]; cbn [runOperation].
  - rewrite gotoItem_eq. intros H. injection H as <- _. apply stepOf_moved.
  - intros H. injection H as <- _. same_step.
  - apply runHandler_step.
  - unfold tick, next. destruct (existsb _ _); rewrite ?gotoItem_eq;
      intros H; injection H as <- _; try apply stepOf_moved; same_step.
  - intros H. injection H as <- _. same_step.
Qed.

Lemma stepOf_breakpoints (c c1 : Carousel) :
  stepOf c c1 -> breakpointsOf c1 = breakpointsOf c
                 /\ loop (options c1) = loop (options c)
                 /\ pagination (options c1) = pagination (options c).
Proof.
  intros (_ & _ & _ & [Ho|(res & s & v & _ & Ho)] & _);
    unfold breakpointsOf; rewrite Ho; repeat split.
Qed.

Lemma stepOf_keeps_range (c c1 : Carousel) :
  inRange c -> loopWindowFits c -> stepOf c c1 ->
  inRange c1 /\ loopWindowFits c1.
Proof.
  intros Hc Hw Hstep.
  destruct (stepOf_breakpoints c c1 Hstep) as (Hbp & Hloop & _).
  destruct Hstep as (Hi & Hm & _ & Ho & Hcur).
  assert (Hlen : len c1 = len c) by (unfold len; now rewrite Hi).
  split.
  - unfold inRange. rewrite Hlen.
    destruct Hcur as [->|(index & ->)]; [exact Hc|].
    now apply clampIndex_inRange.
  - unfold loopWindowFits. rewrite Hbp, Hloop, Hlen. intros Hl.
    destruct (Hw Hl) as [Hsv Hbps]. split; [|exact Hbps].
    unfold slidesVisible in *. rewrite Hm.
    destruct Ho as [->|(res & s & v & Hin & ->)]; [exact Hsv|].
    cbn [slidesVisible_opt withWindow].
    pose proof (Hbps res s v Hin). destruct (isMobile c); lia.
Qed.

Lemma stepOf_keeps_steps (c c1 : Carousel) :
  stepsPositive c -> stepOf c c1 ->
  stepsPositive c1 /\ scrollable c1 = scrollable c.
Proof.
  intros Hs Hstep.
  destruct (stepOf_breakpoints c c1 Hstep) as (Hbp & _ & Hpag).
  destruct Hstep as (Hi & _ & Hoff & Ho & _). split.
  - unfold stepsPositive. rewrite Hbp, Hpag. intros Hp.
    destruct (Hs Hp) as [Hsts Hbps]. split; [|exact Hbps].
    destruct Ho as [->|(res & s & v & Hin & ->)]; [exact Hsts|].
    cbn [slidesToScroll_opt withWindow]. exact (Hbps res s v Hin).
  - unfold scrollable, len. now rewrite Hi, Hoff.
Qed.

Lemma onWindowResize_total (fuel : nat) (c : Carousel) (w : World) :
  stepsPositive c -> (Z.to_nat (scrollable c) < fuel)%nat ->
  exists c1 w1, onWindowResize fuel c w = Ok (c1, w1).
Proof.
  intros Hs Hfuel. unfold onWindowResize. rewrite resize_options. cbv zeta.
  set (c0 := set_options
               (selectBreakpoint (innerWidth w) (breakpointsOf c) (options c)) c).
  destruct (pagination (options c0)) eqn:Hp.
  - assert (Hp' : pagination (options c) = true).
    { subst c0. cbn [options set_options] in Hp.
      now destruct (selectBreakpoint_keeps (innerWidth w) (breakpointsOf c)
                      (options c)) as (_ & _ & <- & _). }
    destruct (Hs Hp') as [Hsts Hbps].
    destruct (createPagination_ok fuel c0 w) as (bs & w2 & E & _).
    + subst c0. cbn [options set_options].
      destruct (selectBreakpoint_cases (innerWidth w) (breakpointsOf c) (options c))
        as [->|(res & s & v & Hin & ->)]; [exact Hsts|].
      exact (Hbps res s v Hin).
    + exact Hfuel.
    + rewrite E. cbn [bind]. rewrite forEachCallBack_eq. cbn [bind].
      eexists _, _. reflexivity.
  - cbn [bind]. rewrite forEachCallBack_eq. cbn [bind].
    eexists _, _. reflexivity.
Qed.

Lemma runOperation_total (fuel : nat) (op : operation) (c : Carousel) (w : World) :
  stepsPositive c -> (Z.to_nat (scrollable c) < fuel)%nat ->
  exists c1 w1, runOperation fuel op c w = Ok (c1, w1).
Proof.
  intros Hs Hfuel.
  destruct op as [index animation|cb|h key|id|width]; cbn [runOperation].
  - rewrite gotoItem_eq. eexists _, _. reflexivity.
  - eexists _, _. reflexivity.
  - destruct h; cbn [runHandler]; unfold next, prev.
    1-3: rewrite gotoItem_eq; eexists _, _; reflexivity.
    + destruct (_ || _); [|destruct (_ || _)]; rewrite ?gotoItem_eq;
        eexists _, _; reflexivity.
    + now apply onWindowResize_total.
    + unfold resetInfinite. destruct (fromAction c); cbn [negb];
        [|eexists _, _; reflexivity].
      destruct (currentItem c <=? slidesToScroll_opt (options c));
        [|destruct (currentItem c >=? len c - offset c)];
        rewrite ?gotoItem_eq; cbn [bind]; eexists _, _; reflexivity.
    + unfold autoplay. eexists _, _. reflexivity.
    + unfold stopAutoplay. destruct (intervalID c); eexists _, _; reflexivity.
  - unfold tick, next. destruct (existsb _ _); rewrite ?gotoItem_eq;
      eexists _, _; reflexivity.
  - eexists _, _. reflexivity.
Qed.

(** C1, as the code has it: from a carousel whose current item is among the
    slides and, when [loop] is on, whose window (as configured and as every
    breakpoint would set it) holds between one slide and all of them, every
    sequence of operations ([gotoItem] called directly, a callback
    registered, any listener of the class run: next, prev, a pagination
    click, a key, a resize, the reset of the infinite mode, autoplay started
    or stopped, a timer tick, the viewport resized) that runs to its end
    leaves [0 <= currentItem < items.length]; and every sequence does run to
    its end when pagination is off or the step (as configured and in every
    breakpoint) is at least one.  Without [loop] nothing is asked of the
    window. *)
Theorem operations_keep_currentItem_in_range
  (fuel : nat) (ops : list operation) (c : Carousel) (w : World) :
  inRange c -> loopWindowFits c ->
  (forall c' w', runOperations fuel ops c w = Ok (c', w') -> inRange c')
  /\ (stepsPositive c -> (Z.to_nat (scrollable c) < fuel)%nat ->
      exists c' w', runOperations fuel ops c w = Ok (c', w') /\ inRange c').
Proof.
  revert c w. induction ops as [|op ops IH]; intros c w Hc Hw.
  - split.
    + intros c' w' H. injection H as <- _. exact Hc.
    + intros _ _. exists c, w. split; [reflexivity|exact Hc].
  - cbn [runOperations]. split.
    + intros c' w' H.
      destruct (runOperation fuel op c w) as [[c1 w1]| |] eqn:E;
        cbn [bind] in H; try discriminate H.
      apply runOperation_step in E.
      destruct (stepOf_keeps_range c c1 Hc Hw E) as [Hc1 Hw1].
      exact (proj1 (IH c1 w1 Hc1 Hw1) c' w' H).
    + intros Hs Hfuel.
      destruct (runOperation_total fuel op c w Hs Hfuel) as (c1 & w1 & E).
      rewrite E. cbn [bind].
      pose proof (runOperation_step _ _ _ _ _ _ E) as Hstep.
      destruct (stepOf_keeps_range c c1 Hc Hw Hstep) as [Hc1 Hw1].
      destruct (stepOf_keeps_steps c c1 Hs Hstep) as [Hs1 Hscr].
      apply (proj2 (IH c1 w1 Hc1 Hw1)); [exact Hs1|now rewrite Hscr].
Qed.

(** Three ways out of the range.  One child behind a window of two slides in
    loop mode: [prev] wraps to [1 - 2].  Three children in loop mode with a
    breakpoint that sets a window of five: after the resize of the
    constructor [prev] wraps to [3 - 5].  No child at all: the current item
    [0] is not below [items.length = 0], before and after [next]. *)
Lemma currentItem_leaves_range_when_window_too_wide :
  (exists c w,
     andThen (build 1 1 (modeOptions 1 2 true false)) prev = Ok (c, w)
     /\ currentItem c = -1 /\ len c = 1 /\ ~ (0 <= currentItem c < len c))
  /\
  (exists c w,
     andThen (build 1 3 (mkUserOptions (Some 1) (Some 1) (Some true) None None
                                       None None None (Some [(0, (1, 5))])))
             prev = Ok (c, w)
     /\ currentItem c = -2 /\ len c = 3 /\ ~ (0 <= currentItem c < len c))
  /\
  (exists c w,
     andThen (build 1 0 (modeOptions 1 1 false false)) next = Ok (c, w)
     /\ currentItem c = 0 /\ len c = 0 /\ ~ (0 <= currentItem c < len c)).
Proof.
  split; [|split]; eexists _, _; (split; [vm_compute; reflexivity|]);
    cbn; repeat split; lia.
Qed.

Lemma operations_keep_currentItem_in_range_witness :
  exists c' w',
    runOperations 3
      [OListener HNext ""; OListener HKeyup "ArrowLeft"; OGoto 7 false;
       OViewport 500; OListener HResize ""; OListener HResetInfinite "";
       OListener HAutoplay ""; OTick 0; OListener (HGoto 4) "";
       OListener HStopAutoplay ""; OOnMove (ExternalObserver 1);
       OListener HPrev ""]
      (carouselOf (plainOptions 2 2 false false) 0 0 1) (freshWorld 4%nat 1024)
    = Ok (c', w') /\ inRange c'.
Proof.
  destruct (operations_keep_currentItem_in_range 3
              [OListener HNext ""; OListener HKeyup "ArrowLeft"; OGoto 7 false;
               OViewport 500; OListener HResize ""; OListener HResetInfinite "";
               OListener HAutoplay ""; OTick 0; OListener (HGoto 4) "";
               OListener HStopAutoplay ""; OOnMove (ExternalObserver 1);
               OListener HPrev ""]
              (carouselOf (plainOptions 2 2 false false) 0 0 1)
              (freshWorld 4%nat 1024)) as [_ Htotal].
  - unfold inRange; cbn; lia.
  - unfold loopWindowFits. cbn. intros H; discriminate H.
  - apply Htotal.
    + unfold stepsPositive. cbn. intros H; discriminate H.
    + unfold scrollable; cbn; lia.
Defined.
